(** * assetgen: content-addressed packer, manifest, IPC bridge and image worker pool

    A shallow embedding of the parts of kenshaw/assetgen that build the
    asset manifest ([pack.Pack], file [pack/pack.go] and its successor
    version), answer IPC callback requests ([gen.IpcServer.handle],
    [gen/ipc.go]) and optimize images with a worker pool
    ([Script.addImages], [gen/script.go]). *)

From Stdlib Require Import ZArith Lia Ascii String Permutation.
From Stdlib Require Import Init.Byte.
From stdpp Require Import base gmap strings list fin_maps sorting.

Open Scope Z_scope.

(* ------------------------------------------------------------------ *)
(** ** Bytes and MD5 ([crypto/md5]) *)

Module MD5.

Definition mask32 (x : Z) : Z := Z.land x (Z.ones 32).
Definition add32 (x y : Z) : Z := mask32 (x + y).
Definition not32 (x : Z) : Z := Z.lxor x (Z.ones 32).
Definition rotl32 (x : Z) (s : Z) : Z :=
  mask32 (Z.lor (Z.shiftl x s) (Z.shiftr x (32 - s))).

Definition K : list Z :=
  [ 0xd76aa478; 0xe8c7b756; 0x242070db; 0xc1bdceee;
    0xf57c0faf; 0x4787c62a; 0xa8304613; 0xfd469501;
    0x698098d8; 0x8b44f7af; 0xffff5bb1; 0x895cd7be;
    0x6b901122; 0xfd987193; 0xa679438e; 0x49b40821;
    0xf61e2562; 0xc040b340; 0x265e5a51; 0xe9b6c7aa;
    0xd62f105d; 0x02441453; 0xd8a1e681; 0xe7d3fbc8;
    0x21e1cde6; 0xc33707d6; 0xf4d50d87; 0x455a14ed;
    0xa9e3e905; 0xfcefa3f8; 0x676f02d9; 0x8d2a4c8a;
    0xfffa3942; 0x8771f681; 0x6d9d6122; 0xfde5380c;
    0xa4beea44; 0x4bdecfa9; 0xf6bb4b60; 0xbebfbc70;
    0x289b7ec6; 0xeaa127fa; 0xd4ef3085; 0x04881d05;
    0xd9d4d039; 0xe6db99e5; 0x1fa27cf8; 0xc4ac5665;
    0xf4292244; 0x432aff97; 0xab9423a7; 0xfc93a039;
    0x655b59c3; 0x8f0ccc92; 0xffeff47d; 0x85845dd1;
    0x6fa87e4f; 0xfe2ce6e0; 0xa3014314; 0x4e0811a1;
    0xf7537e82; 0xbd3af235; 0x2ad7d2bb; 0xeb86d391 ].

Definition shifts : list Z :=
  [7;12;17;22; 7;12;17;22; 7;12;17;22; 7;12;17;22;
   5;9;14;20; 5;9;14;20; 5;9;14;20; 5;9;14;20;
   4;11;16;23; 4;11;16;23; 4;11;16;23; 4;11;16;23;
   6;10;15;21; 6;10;15;21; 6;10;15;21; 6;10;15;21].

(** little-endian 32-bit word from four bytes *)
Definition le32 (b0 b1 b2 b3 : Z) : Z :=
  Z.lor b0 (Z.lor (Z.shiftl b1 8) (Z.lor (Z.shiftl b2 16) (Z.shiftl b3 24))).

Fixpoint words (bs : list Z) : list Z :=
  match bs with
  | b0 :: b1 :: b2 :: b3 :: rest => le32 b0 b1 b2 b3 :: words rest
  | _ => []
  end.

Definition le_bytes32 (w : Z) : list Z :=
  [Z.land w 255; Z.land (Z.shiftr w 8) 255;
   Z.land (Z.shiftr w 16) 255; Z.land (Z.shiftr w 24) 255].

Definition le_bytes64 (w : Z) : list Z :=
  le_bytes32 (Z.land w (Z.ones 32)) ++ le_bytes32 (Z.shiftr w 32).

(** one of the 64 rounds of the compression function *)
Definition round (M : list Z) (st : Z * Z * Z * Z) (i : nat) : Z * Z * Z * Z :=
  let '(a, b, c, d) := st in
  let iz := Z.of_nat i in
  let '(f, g) :=
    if (i <? 16)%nat then (Z.lor (Z.land b c) (Z.land (not32 b) d), iz)
    else if (i <? 32)%nat then (Z.lor (Z.land d b) (Z.land (not32 d) c), (5 * iz + 1) mod 16)
    else if (i <? 48)%nat then (Z.lxor b (Z.lxor c d), (3 * iz + 5) mod 16)
    else (Z.lxor c (Z.lor b (not32 d)), (7 * iz) mod 16) in
  let f := add32 (add32 (add32 f a) (nth i K 0)) (nth (Z.to_nat g) M 0) in
  (d, add32 b (rotl32 f (nth i shifts 0)), b, c).

Definition block (st : Z * Z * Z * Z) (M : list Z) : Z * Z * Z * Z :=
  let '(a, b, c, d) := st in
  let '(a', b', c', d') := fold_left (round M) (seq 0 64) st in
  (add32 a a', add32 b b', add32 c c', add32 d d').

Fixpoint blocks (fuel : nat) (st : Z * Z * Z * Z) (ws : list Z) : Z * Z * Z * Z :=
  match fuel with
  | O => st
  | S fuel' =>
      match ws with
      | [] => st
      | _ => blocks fuel' (block st (firstn 16 ws)) (skipn 16 ws)
      end
  end.

Definition pad (bs : list Z) : list Z :=
  let n := length bs in
  let zeros := ((119 - n mod 64) mod 64)%nat in
  bs ++ [128] ++ repeat 0 zeros ++ le_bytes64 (8 * Z.of_nat n).

(** [md5.Sum]: the 16-byte digest *)
Definition sum (input : list byte) : list Z :=
  let bs := pad (map (fun b => Z.of_N (Byte.to_N b)) input) in
  let '(a, b, c, d) :=
    blocks (length bs) (0x67452301, 0xefcdab89, 0x98badcfe, 0x10325476) (words bs) in
  le_bytes32 a ++ le_bytes32 b ++ le_bytes32 c ++ le_bytes32 d.

End MD5.

(** [fmt.Sprintf("%x", ...)] / [hex.EncodeToString]: lower-case hex *)
Definition hex_digit (n : Z) : ascii :=
  if n <? 10 then ascii_of_nat (48 + Z.to_nat n) else ascii_of_nat (87 + Z.to_nat n).

Fixpoint hex (bs : list Z) : string :=
  match bs with
  | [] => EmptyString
  | b :: rest => String (hex_digit (Z.shiftr b 4)) (String (hex_digit (Z.land b 15)) (hex rest))
  end.

(** [[]byte(s)] *)
Definition bytes_of (s : string) : list byte := list_byte_of_string s.

Definition md5hex (b : list byte) : string := hex (MD5.sum b).

(* ------------------------------------------------------------------ *)
(** ** Paths ([strings.TrimLeft], [path/filepath]) *)

Definition slash : ascii := "/"%char.

(** [strings.TrimLeft(s, "/")] *)
Fixpoint trim_left_slash (s : string) : string :=
  match s with
  | String c r => if Ascii.eqb c slash then trim_left_slash r else s
  | EmptyString => EmptyString
  end.

(** the name normalization at the top of [Pack.Pack]:
    [name = "/" + strings.TrimLeft(name, "/")] *)
Definition normalize (name : string) : string := String slash (trim_left_slash name).

Fixpoint split_aux (s : list ascii) (cur : list ascii) : list string :=
  match s with
  | [] => [string_of_list_ascii (rev cur)]
  | c :: r =>
      if Ascii.eqb c slash then string_of_list_ascii (rev cur) :: split_aux r []
      else split_aux r (c :: cur)
  end.

(** [strings.Split(s, "/")] *)
Definition split_slash (s : string) : list string := split_aux (list_ascii_of_string s) [].

Definition clean_step (st : list string) (c : string) : list string :=
  if String.eqb c EmptyString || String.eqb c "." then st
  else if String.eqb c ".." then match st with _ :: t => t | [] => [] end
  else c :: st.

(** the components of [filepath.Clean] of a rooted path ([".."] at the
    root is dropped); the backing store resolves every path this way *)
Definition clean_comps (s : string) : list string := rev (fold_left clean_step (split_slash s) []).

Fixpoint join_slash (cs : list string) : string :=
  match cs with
  | [] => EmptyString
  | c :: r => ("/" ++ c ++ join_slash r)%string
  end.

Definition path_of_comps (cs : list string) : string :=
  match cs with [] => "/" | _ => join_slash cs end.

(** [filepath.Clean] of a rooted path *)
Definition go_clean (s : string) : string := path_of_comps (clean_comps s).

Fixpoint drop_while (f : ascii -> bool) (l : list ascii) : list ascii :=
  match l with
  | [] => []
  | c :: r => if f c then drop_while f r else l
  end.

(** [filepath.Dir]: [Clean] of everything up to the last separator *)
Definition go_dir (s : string) : string :=
  let pre := List.rev (drop_while (fun c => negb (Ascii.eqb c slash))
                         (List.rev (list_ascii_of_string s))) in
  go_clean (string_of_list_ascii pre).

Fixpoint ext_aux (r : list ascii) (acc : list ascii) : string :=
  match r with
  | [] => EmptyString
  | c :: r' =>
      if Ascii.eqb c slash then EmptyString
      else if Ascii.eqb c "."%char then string_of_list_ascii (c :: acc)
      else ext_aux r' (c :: acc)
  end.

(** [filepath.Ext] *)
Definition go_ext (s : string) : string := ext_aux (rev (list_ascii_of_string s)) [].

Fixpoint base_aux (r : list ascii) (acc : list ascii) : list ascii :=
  match r with
  | [] => acc
  | c :: r' => if Ascii.eqb c slash then acc else base_aux r' (c :: acc)
  end.

(** [filepath.Base] *)
Definition go_base (s : string) : string :=
  match s with
  | EmptyString => "."
  | _ =>
      let r := drop_while (fun c => Ascii.eqb c slash) (rev (list_ascii_of_string s)) in
      match r with
      | [] => "/"
      | _ => string_of_list_ascii (base_aux r [])
      end
  end.

(** [s[:6]] on a string at least 6 long *)
Definition prefix6 (s : string) : string := substring 0 6 s.

(* ------------------------------------------------------------------ *)
(** ** The backing store ([afero.Fs] over a base directory)

    A hierarchical store keyed by cleaned absolute paths. [MkdirAll] and
    [WriteFile] follow the POSIX behaviour of the OS-backed store that
    [NewBase] installs: creating a directory over a file fails, writing a
    file needs an existing parent directory and fails on a directory. *)

Inductive node := NDir | NFile (data : list byte).

Definition is_dir (nd : node) : bool := match nd with NDir => true | NFile _ => false end.

(** the paths of [cs] and of all its ancestors, root first *)
Definition prefixes (cs : list string) : list string :=
  map (fun k => path_of_comps (firstn k cs)) (seq 0 (S (length cs))).

Definition mkdir_step (acc : option string * gmap string node) (q : string)
  : option string * gmap string node :=
  match acc with
  | (Some e, st) => (Some e, st)
  | (None, st) =>
      match st !! q with
      | Some NDir => (None, st)
      | Some (NFile _) => (Some ("mkdir " ++ q ++ ": not a directory")%string, st)
      | None => (None, <[q := NDir]> st)
      end
  end.

(** [fs.MkdirAll(path, 0755)] *)
Definition mkdir_all (st : gmap string node) (path : string) : option string * gmap string node :=
  match fold_left mkdir_step (prefixes (clean_comps path)) (None, st) with
  | (Some e, _) => (Some e, st)
  | (None, st') => (None, st')
  end.

(** [afero.WriteFile(fs, path, data, 0644)] *)
Definition write_file (st : gmap string node) (path : string) (data : list byte)
  : option string * gmap string node :=
  let cs := clean_comps path in
  let q := path_of_comps cs in
  match cs with
  | [] => (Some ("open " ++ q ++ ": is a directory")%string, st)
  | _ =>
      match st !! path_of_comps (removelast cs), st !! q with
      | Some NDir, Some NDir => (Some ("open " ++ q ++ ": is a directory")%string, st)
      | Some NDir, _ => (None, <[q := NFile data]> st)
      | _, _ => (Some ("open " ++ q ++ ": no such file or directory")%string, st)
      end
  end.

(** reading [path] back from the store *)
Definition read_file (st : gmap string node) (path : string) : option node := st !! go_clean path.

(** Results of the Go functions returning [(T, error)], with a separate
    case for a run-time panic. *)
Inductive outcome (A : Type) := Ok (a : A) | Err (e : string) | Panic (msg : string).
Arguments Ok {A} a.
Arguments Err {A} e.
Arguments Panic {A} msg.

Module pack.

(** [type Pack struct { fs afero.Fs; h map[string]string; manifest string }] *)
Record Pack := mkPack {
  fs : gmap string node;
  h : gmap string string;
  manifest : string
}.

(** [New(fs)] with no options: the manifest name defaults to ["manifest.json"].
    [NewBase(base)] is [New] over the (possibly non-empty) base directory. *)
Definition New (st : gmap string node) : Pack := mkPack st ∅ "manifest.json".

(** the option [WithManifest(manifest)] *)
Definition WithManifest (m : string) (p : Pack) : Pack := mkPack (fs p) (h p) m.

(** [p.Pack(name, r)], with [buf] the bytes read from [r] *)
Definition Pack_ (p : Pack) (name : string) (buf : list byte) : Pack * option string :=
  let name := normalize name in
  match mkdir_all (fs p) (go_dir name) with
  | (Some e, st) => (mkPack st (h p) (manifest p), Some e)
  | (None, st) =>
      match write_file st name buf with
      | (Some e, st') => (mkPack st' (h p) (manifest p), Some e)
      | (None, st') => (mkPack st' (<[name := md5hex buf]> (h p)) (manifest p), None)
      end
  end.

(** [PackBytes] and [PackString] are [Pack] on the given bytes *)
Definition PackBytes (p : Pack) (name : string) (buf : list byte) := Pack_ p name buf.
Definition PackString (p : Pack) (name s : string) := Pack_ p name (bytes_of s).

(** packing a sequence of entries, stopping at the first error as the
    build driver does *)
Fixpoint pack_all (p : Pack) (l : list (string * list byte)) : Pack * option string :=
  match l with
  | [] => (p, None)
  | (n, b) :: r =>
      match Pack_ p n b with
      | (p', None) => pack_all p' r
      | (p', Some e) => (p', Some e)
      end
  end.

(** the fingerprinted name built in the walk callback of [Manifest] *)
Definition fingerprint (n hv : string) : string :=
  (prefix6 (md5hex (bytes_of (trim_left_slash n))) ++ "." ++ prefix6 hv ++ go_ext n)%string.

(** the walk callback of [Manifest]; [p.h[n]] is the empty string for a missing key
    and [p.h[n][:6]] panics when the value is shorter than 6 bytes *)
Definition manifest_step (p : Pack) (acc : outcome (gmap string string)) (e : string * node)
  : outcome (gmap string string) :=
  match acc with
  | Ok m =>
      let (n, nd) := e in
      if is_dir nd || String.eqb (go_base n) (manifest p) then Ok m
      else
        let hv := default EmptyString (h p !! n) in
        if (String.length hv <? 6)%nat
        then Panic "runtime error: slice bounds out of range"
        else Ok (<[n := fingerprint n hv]> m)
  | other => other
  end.

(** [afero.Walk] over a walk order [w] of the stored entries *)
Definition manifest_walk (p : Pack) (w : list (string * node)) : outcome (gmap string string) :=
  fold_left (manifest_step p) w (Ok ∅).

(** [p.Manifest()]; the store walk visits every stored entry once *)
Definition Manifest (p : Pack) : outcome (gmap string string) :=
  manifest_walk p (map_to_list (fs p)).

(** [for v, k := range m { rev[k] = v }] in the iteration order [l] *)
Definition invert (l : list (string * string)) : gmap string string :=
  fold_left (fun rev '(v, k) => <[k := v]> rev) l ∅.

(** [p.ManifestInverted()]; Go ranges over the map in an unspecified
    order, here the order of [map_to_list] *)
Definition ManifestInverted (p : Pack) : outcome (gmap string string) :=
  match Manifest p with
  | Ok m => Ok (invert (map_to_list m))
  | Err e => Err e
  | Panic s => Panic s
  end.

End pack.

(* ------------------------------------------------------------------ *)
(** ** JSON values and [encoding/json] decoding of one request line *)

Inductive json :=
| JNull
| JBool (b : bool)
| JNumber (lit : string)
| JString (s : string)
| JArray (l : list json)
| JObject (fields : list (string * json)).

Module jsondec.

Definition is_ws (c : ascii) : bool :=
  Ascii.eqb c " "%char || Ascii.eqb c (ascii_of_nat 9) ||
  Ascii.eqb c (ascii_of_nat 10) || Ascii.eqb c (ascii_of_nat 13).

Fixpoint skip_ws (s : list ascii) : list ascii :=
  match s with
  | c :: r => if is_ws c then skip_ws r else s
  | [] => []
  end.

Definition is_digit (c : ascii) : bool :=
  let n := nat_of_ascii c in (48 <=? n)%nat && (n <=? 57)%nat.

Definition dquote : ascii := ascii_of_nat 34.
Definition bslash : ascii := ascii_of_nat 92.

Definition hex_val (c : ascii) : option Z :=
  let n := Z.of_nat (nat_of_ascii c) in
  if (48 <=? n) && (n <=? 57) then Some (n - 48)
  else if (97 <=? n) && (n <=? 102) then Some (n - 87)
  else if (65 <=? n) && (n <=? 70) then Some (n - 55)
  else None.

Definition hex4 (s : list ascii) : option (Z * list ascii) :=
  match s with
  | a :: b :: c :: d :: r =>
      match hex_val a, hex_val b, hex_val c, hex_val d with
      | Some x, Some y, Some z, Some w => Some (x * 4096 + y * 256 + z * 16 + w, r)
      | _, _, _, _ => None
      end
  | _ => None
  end.

Definition chr (n : Z) : ascii := ascii_of_nat (Z.to_nat n).

(** UTF-8 encoding of a code point *)
Definition utf8 (cp : Z) : list ascii :=
  if cp <? 0x80 then [chr cp]
  else if cp <? 0x800 then [chr (0xC0 + Z.shiftr cp 6); chr (0x80 + Z.land cp 63)]
  else if cp <? 0x10000 then
    [chr (0xE0 + Z.shiftr cp 12); chr (0x80 + Z.land (Z.shiftr cp 6) 63); chr (0x80 + Z.land cp 63)]
  else
    [chr (0xF0 + Z.shiftr cp 18); chr (0x80 + Z.land (Z.shiftr cp 12) 63);
     chr (0x80 + Z.land (Z.shiftr cp 6) 63); chr (0x80 + Z.land cp 63)].

(** a [\uXXXX] escape; a surrogate pair is combined, a lone surrogate
    becomes U+FFFD *)
Definition unicode_escape (s : list ascii) : option (list ascii * list ascii) :=
  match hex4 s with
  | None => None
  | Some (cp, r) =>
      if (0xD800 <=? cp) && (cp <? 0xDC00) then
        match r with
        | b :: u :: r' =>
            if Ascii.eqb b bslash && Ascii.eqb u "u"%char then
              match hex4 r' with
              | Some (lo, r'') =>
                  if (0xDC00 <=? lo) && (lo <? 0xE000)
                  then Some (utf8 (0x10000 + Z.shiftl (cp - 0xD800) 10 + (lo - 0xDC00)), r'')
                  else Some (utf8 0xFFFD, r)
              | None => Some (utf8 0xFFFD, r)
              end
            else Some (utf8 0xFFFD, r)
        | _ => Some (utf8 0xFFFD, r)
        end
      else if (0xDC00 <=? cp) && (cp <? 0xE000) then Some (utf8 0xFFFD, r)
      else Some (utf8 cp, r)
  end.

(** the body of a string literal after its opening quote *)
Fixpoint string_body (fuel : nat) (s : list ascii) (acc : list ascii)
  : option (string * list ascii) :=
  match fuel with
  | O => None
  | S fuel' =>
      match s with
      | [] => None
      | c :: r =>
          if Ascii.eqb c dquote then Some (string_of_list_ascii (rev acc), r)
          else if Ascii.eqb c bslash then
            match r with
            | [] => None
            | e :: r' =>
                if Ascii.eqb e "u"%char then
                  match unicode_escape r' with
                  | Some (cs, r'') => string_body fuel' r'' (rev cs ++ acc)
                  | None => None
                  end
                else
                  let esc :=
                    if Ascii.eqb e dquote then Some e
                    else if Ascii.eqb e bslash then Some e
                    else if Ascii.eqb e "/"%char then Some e
                    else if Ascii.eqb e "b"%char then Some (ascii_of_nat 8)
                    else if Ascii.eqb e "f"%char then Some (ascii_of_nat 12)
                    else if Ascii.eqb e "n"%char then Some (ascii_of_nat 10)
                    else if Ascii.eqb e "r"%char then Some (ascii_of_nat 13)
                    else if Ascii.eqb e "t"%char then Some (ascii_of_nat 9)
                    else None in
                  match esc with
                  | Some x => string_body fuel' r' (x :: acc)
                  | None => None
                  end
            end
          else if (nat_of_ascii c <? 32)%nat then None
          else string_body fuel' r (c :: acc)
      end
  end.

Fixpoint digits (s : list ascii) (acc : list ascii) : list ascii * list ascii :=
  match s with
  | c :: r => if is_digit c then digits r (c :: acc) else (acc, s)
  | [] => (acc, s)
  end.

(** a number literal [-?(0|[1-9][0-9]* )(.[0-9]+)?([eE][+-]?[0-9]+)?],
    kept as its text *)
Definition number (s : list ascii) : option (json * list ascii) :=
  let '(sign, s1) := match s with "-"%char :: r => (["-"%char], r) | _ => ([], s) end in
  let int_part :=
    match s1 with
    | "0"%char :: r => Some (["0"%char], r)
    | c :: _ => if is_digit c then Some (let '(d, r) := digits s1 [] in (rev d, r)) else None
    | [] => None
    end in
  match int_part with
  | None => None
  | Some (ip, s2) =>
      let frac :=
        match s2 with
        | "."%char :: r =>
            let '(d, r') := digits r [] in
            match d with [] => None | _ => Some ("."%char :: rev d, r') end
        | _ => Some ([], s2)
        end in
      match frac with
      | None => None
      | Some (fp, s3) =>
          let expo :=
            match s3 with
            | e :: r =>
                if Ascii.eqb e "e"%char || Ascii.eqb e "E"%char then
                  let '(sg, r1) :=
                    match r with
                    | "+"%char :: r1 => (["+"%char], r1)
                    | "-"%char :: r1 => (["-"%char], r1)
                    | _ => ([], r)
                    end in
                  let '(d, r2) := digits r1 [] in
                  match d with [] => None | _ => Some (e :: sg ++ rev d, r2) end
                else Some ([], s3)
            | [] => Some ([], s3)
            end in
          match expo with
          | None => None
          | Some (xp, s4) => Some (JNumber (string_of_list_ascii (sign ++ ip ++ fp ++ xp)), s4)
          end
      end
  end.

Definition literal (word : string) (v : json) (s : list ascii) : option (json * list ascii) :=
  let w := list_ascii_of_string word in
  if decide (firstn (length w) s = w) then Some (v, skipn (length w) s) else None.

(** one JSON value, leaving the rest of the input unread as
    [json.Decoder.Decode] does; [fuel] bounds the nesting depth *)
Fixpoint value (fuel : nat) (s : list ascii) {struct fuel} : option (json * list ascii) :=
  match fuel with
  | O => None
  | S f =>
      let fix members (g : nat) (s : list ascii) (acc : list (string * json))
          : option (json * list ascii) :=
        match g with
        | O => None
        | S g' =>
            match skip_ws s with
            | c :: r =>
                if Ascii.eqb c dquote then
                  match string_body (S (length r)) r [] with
                  | Some (k, r1) =>
                      match skip_ws r1 with
                      | c1 :: r2 =>
                          if Ascii.eqb c1 ":"%char then
                            match value f r2 with
                            | Some (v, r3) =>
                                match skip_ws r3 with
                                | c3 :: r4 =>
                                    if Ascii.eqb c3 ","%char then members g' r4 ((k, v) :: acc)
                                    else if Ascii.eqb c3 "}"%char
                                    then Some (JObject (rev ((k, v) :: acc)), r4)
                                    else None
                                | [] => None
                                end
                            | None => None
                            end
                          else None
                      | [] => None
                      end
                  | None => None
                  end
                else None
            | [] => None
            end
        end in
      let fix elements (g : nat) (s : list ascii) (acc : list json)
          : option (json * list ascii) :=
        match g with
        | O => None
        | S g' =>
            match value f s with
            | Some (v, r3) =>
                match skip_ws r3 with
                | c3 :: r4 =>
                    if Ascii.eqb c3 ","%char then elements g' r4 (v :: acc)
                    else if Ascii.eqb c3 "]"%char then Some (JArray (rev (v :: acc)), r4)
                    else None
                | [] => None
                end
            | None => None
            end
        end in
      match skip_ws s with
      | [] => None
      | c :: r =>
          if Ascii.eqb c "{"%char then
            match skip_ws r with
            | c' :: r' => if Ascii.eqb c' "}"%char then Some (JObject [], r')
                          else members (S (length r)) r []
            | [] => None
            end
          else if Ascii.eqb c "["%char then
            match skip_ws r with
            | c' :: r' => if Ascii.eqb c' "]"%char then Some (JArray [], r')
                          else elements (S (length r)) r []
            | [] => None
            end
          else if Ascii.eqb c dquote then
            match string_body (S (length r)) r [] with
            | Some (str, r') => Some (JString str, r')
            | None => None
            end
          else if Ascii.eqb c "t"%char then literal "true" (JBool true) (c :: r)
          else if Ascii.eqb c "f"%char then literal "false" (JBool false) (c :: r)
          else if Ascii.eqb c "n"%char then literal "null" JNull (c :: r)
          else if Ascii.eqb c "-"%char || is_digit c then number (c :: r)
          else None
      end
  end.

End jsondec.

(** [type IpcMsg struct { Type string; Params map[string]interface{} }]
    ([Type] is a keyword here, the field is [Type_]);
    [None] is the nil map *)
Record IpcMsg := mkIpcMsg {
  Type_ : string;
  Params : option (list (string * json))
}.

Definition ascii_lower (c : ascii) : ascii :=
  let n := nat_of_ascii c in
  if (65 <=? n)%nat && (n <=? 90)%nat then ascii_of_nat (n + 32) else c.

Definition lower (s : string) : string :=
  string_of_list_ascii (map ascii_lower (list_ascii_of_string s)).

(** a JSON key selects a struct field when it equals the field's tag up
    to (ASCII) case folding *)
Definition key_matches (key tag : string) : bool := String.eqb (lower key) tag.

(** one key of the request object; a type mismatch is remembered and
    decoding goes on, as [encoding/json] does *)
Definition decode_field (acc : IpcMsg * option string) (kv : string * json) : IpcMsg * option string :=
  let '(v, err) := acc in
  let '(k, x) := kv in
  let mismatch := fun (fld : string) =>
    (v, match err with Some e => Some e | None =>
          Some ("json: cannot unmarshal into Go struct field IpcMsg." ++ fld)%string end) in
  if key_matches k "type" then
    match x with
    | JString s => (mkIpcMsg s (Params v), err)
    | JNull => (v, err)
    | _ => mismatch "type"
    end
  else if key_matches k "params" then
    match x with
    | JNull => (mkIpcMsg (Type_ v) None, err)
    | JObject fs => (mkIpcMsg (Type_ v) (Some (default [] (Params v) ++ fs)), err)
    | _ => mismatch "params"
    end
  else (v, err).

Definition zero_msg : IpcMsg := mkIpcMsg EmptyString None.

(** [json.NewDecoder(strings.NewReader(line)).Decode(&v)]: [inl v] or the
    decoding error *)
Definition decode_msg (line : string) : IpcMsg + string :=
  let s := list_ascii_of_string line in
  match jsondec.value (S (length s)) s with
  | None =>
      match jsondec.skip_ws s with
      | [] => inr "EOF"
      | _ => inr "invalid character or unexpected end of JSON input"
      end
  | Some (JNull, _) => inl zero_msg
  | Some (JObject fs, _) =>
      match fold_left decode_field fs (zero_msg, None) with
      | (v, None) => inl v
      | (_, Some e) => inr e
      end
  | Some (_, _) => inr "json: cannot unmarshal into Go value of type IpcMsg"
  end.

(* ------------------------------------------------------------------ *)
(** ** The IPC callback bridge ([gen.IpcServer]) *)

Module ipc.

(** [func(...interface{}) (interface{}, error)]: a result or an error message *)
Abbreviation callback := (list json -> json + string).

(** [v.Params[k]]: the last occurrence wins, as in the decoded Go map;
    a nil map yields nil *)
Definition param (v : IpcMsg) (k : string) : option json :=
  match Params v with
  | None => None
  | Some fs => fold_left (fun r '(k', x) => if String.eqb k' k then Some x else r) fs None
  end.

(** [s.doCall(v)] *)
Definition doCall (m : gmap string callback) (v : IpcMsg) : json + string :=
  match param v "name" with
  | Some (JString name) =>
      match param v "args" with
      | Some (JArray args) =>
          match m !! name with
          | Some f => f args
          | None => inr "invalid func name"
          end
      | _ => inr "missing args in call"
      end
  | _ => inr "missing name in call"
  end.

(** [funcs]: a nil slice (encoded as [null]) until the first append *)
Definition funcs_json (funcs : list string) : json :=
  match funcs with
  | [] => JNull
  | _ => JArray (map JString funcs)
  end.

(** the [ret] map built for a decoded request; [ord] is the order in
    which [for fn := range s.m] visits the callback names *)
Definition respond (m : gmap string callback) (ord : list string) (v : IpcMsg) : json :=
  if String.eqb (Type_ v) "list-functions" then JObject [("result", funcs_json ord)]
  else if String.eqb (Type_ v) "call" then
    match doCall m v with
    | inr e => JObject [("error", JString e)]
    | inl res => JObject [("result", res)]
    end
  else JObject [("error", JString "unknown request type")].

(** what [s.handle(ctxt, conn)] does with the lines the client sends *)
Inductive handled :=
| Wrote (resp : json)        (** one response encoded to [conn], then closed *)
| DecodeFailed (e : string)  (** error logged and returned, nothing written *)
| Waiting.                   (** no line: loops until [ctxt] is cancelled *)

Definition handle (m : gmap string callback) (ord : list string) (lines : list string) : handled :=
  match lines with
  | [] => Waiting
  | line :: _ =>
      match decode_msg line with
      | inr e => DecodeFailed e
      | inl v => Wrote (respond m ord v)
      end
  end.

(** the responses written on a connection *)
Definition written (r : handled) : list json :=
  match r with Wrote j => [j] | _ => [] end.

(** the accept loop of [Run]: every accepted connection gets its own
    [go s.handle(ctxt, conn)], whose returned error is dropped; each
    connection comes with the map iteration order its handler sees *)
Definition accept_loop (m : gmap string callback)
    (conns : list (list string * list string)) : list handled :=
  map (fun '(ord, lines) => handle m ord lines) conns.

End ipc.

(* ------------------------------------------------------------------ *)
(** ** The image worker pool of [Script.addImages]

    [ch] is filled with the changed files and closed; [s.flags.Workers]
    goroutines run under [errgroup.WithContext]; each loops on
    [select { case <-ctxt.Done(): return ctxt.Err(); case fn := <-ch: ... }].
    Go's [select] picks uniformly among the ready cases, so the step
    relation lets a worker take either ready case. *)

Module images.

Inductive worker :=
| Selecting                     (** at the [select] of the loop *)
| Optimizing (fn : string)      (** inside [s.optimizeImage(out, in)] *)
| Returned (err : option string).

Record pool := mkPool {
  ch : list string;                 (** the items still buffered in [ch] *)
  workers : list worker;
  cancelled : bool;                 (** [ctxt.Done()] is closed *)
  first_err : option string;        (** the error kept by [errgroup] *)
  started : list (string * bool)    (** items begun, and whether [ctxt] was done then *)
}.

(** [errgroup]: the first non-nil error returned by a goroutine is kept
    and cancels the context *)
Definition record_err (p : pool) (e : option string) : option string * bool :=
  match e, first_err p with
  | Some x, None => (Some x, true)
  | _, _ => (first_err p, cancelled p)
  end.

Definition ret (p : pool) (i : nat) (e : option string) : pool :=
  let '(fe, c) := record_err p e in
  mkPool (ch p) (<[i := Returned e]> (workers p)) c fe (started p).

Section Pool.

(** [s.optimizeImage(out, in)] for the file [fn] *)
Variable optimizeImage : string -> option string.

Inductive step : pool -> pool -> Prop :=
| step_done i p :
    workers p !! i = Some Selecting -> cancelled p = true ->
    step p (ret p i (Some "context canceled"))
| step_recv i p fn rest :
    workers p !! i = Some Selecting -> ch p = fn :: rest -> fn <> EmptyString ->
    step p (mkPool rest (<[i := Optimizing fn]> (workers p)) (cancelled p) (first_err p)
              (started p ++ [(fn, cancelled p)]))
| step_recv_empty i p rest :
    workers p !! i = Some Selecting -> ch p = EmptyString :: rest ->
    step p (ret (mkPool rest (workers p) (cancelled p) (first_err p) (started p)) i None)
| step_closed i p :
    workers p !! i = Some Selecting -> ch p = [] ->
    step p (ret p i None)
| step_fail i p fn e :
    workers p !! i = Some (Optimizing fn) -> optimizeImage fn = Some e ->
    step p (ret p i (Some e))
| step_ok i p fn :
    workers p !! i = Some (Optimizing fn) -> optimizeImage fn = None ->
    step p (mkPool (ch p) (<[i := Selecting]> (workers p)) (cancelled p) (first_err p) (started p)).

End Pool.

(** the pool right after the [eg.Go] calls *)
Definition init (workers : nat) (changed : list string) : pool :=
  mkPool changed (repeat Selecting workers) false None [].

(** [eg.Wait()] returns once every goroutine has returned *)
Definition finished (p : pool) : bool :=
  forallb (fun w => match w with Returned _ => true | _ => false end) (workers p).

End images.

(* ------------------------------------------------------------------ *)
(** ** The [asset($url)] callback of [Script.startCallbackServer] *)

Module assetcb.
Import pack.

Fixpoint last_index_aux (s : string) (c : ascii) (i : nat) (acc : option nat) : option nat :=
  match s with
  | EmptyString => acc
  | String d r => last_index_aux r c (S i) (if Ascii.eqb d c then Some i else acc)
  end.

(** [strings.LastIndex(s, c)] for a one-byte [c]; [None] for [-1] *)
Definition last_index (s : string) (c : ascii) : option nat := last_index_aux s c 0 None.

(** [s[i:]] and [s[:i]] *)
Definition slice_from (s : string) (i : nat) : string := substring i (String.length s - i) s.
Definition slice_to (s : string) (i : nat) : string := substring 0 i s.

(** [strings.TrimPrefix(z, "/")] *)
Definition trim_prefix_slash (z : string) : string :=
  match z with
  | String c r => if Ascii.eqb c slash then r else z
  | EmptyString => EmptyString
  end.

(** [if strings.HasPrefix(z, "../webfonts/") { z = z[2:] }] *)
Definition fix_webfonts (z : string) : string :=
  if String.prefix "../webfonts/" z then slice_from z 2 else z.

(** the saved query string: [(z, qstr)] after the split at the last
    ["?"], or else at the last ["#"] *)
Definition split_qstr (z : string) : string * string :=
  match last_index z "?"%char with
  | Some i => (slice_to z i, slice_from z i)
  | None =>
      match last_index z "#"%char with
      | Some i => (slice_to z i, slice_from z i)
      | None => (z, EmptyString)
      end
  end.

(** the callback [asset($url)] on the decoded arguments [v], over the
    [dist] pack; the [warnf] call only logs *)
Definition asset (dist : Pack) (v : list json) : outcome json :=
  match v with
  | [x] =>
      match x with
      | JString z0 =>
          let '(z, qstr) := split_qstr (fix_webfonts z0) in
          match Manifest dist with
          | Ok m =>
              let n := match m !! ("/" ++ trim_prefix_slash z)%string with
                       | Some n => n
                       | None => ("__INV:" ++ z ++ qstr ++ "__")%string
                       end in
              Ok (JString ("url('/_/" ++ n ++ qstr ++ "')")%string)
          | Err e => Err ("unable to load manifest: " ++ e)%string
          | Panic s => Panic s
          end
      | _ => Err "$url must be a string"
      end
  | _ => Err "invalid number of args"
  end.

End assetcb.

(* ================================================================== *)
(** * Properties *)

(* ------------------------------------------------------------------ *)
(** ** Name normalization in [Pack] *)

Fixpoint slashes (k : nat) : string :=
  match k with O => EmptyString | S k' => String slash (slashes k') end.

Lemma trim_left_slash_slashes (k : nat) (n : string) :
  trim_left_slash (slashes k ++ n) = trim_left_slash n.
Proof. induction k as [|k IH]; simpl; [reflexivity | exact IH]. Qed.

Lemma normalize_slashes (k : nat) (n : string) : normalize (slashes k ++ n) = normalize n.
Proof. unfold normalize. now rewrite trim_left_slash_slashes. Qed.

Lemma write_file_ok (st st' : gmap string node) (path : string) (data : list byte) :
  write_file st path data = (None, st') ->
  st' = <[go_clean path := NFile data]> st /\ st !! go_clean path <> Some NDir /\
  st !! path_of_comps (removelast (clean_comps path)) = Some NDir /\ clean_comps path <> [].
Proof.
  unfold write_file, go_clean.
  destruct (clean_comps path) as [|c cs] eqn:E; [discriminate|].
  destruct (st !! path_of_comps (removelast (c :: cs))) as [[|x]|] eqn:Ep;
    destruct (st !! path_of_comps (c :: cs)) as [[|y]|] eqn:Eq; intros H; inversion H;
    subst; repeat split; congruence.
Qed.

Lemma Pack_ok_inv (p p' : pack.Pack) (n : string) (b : list byte) :
  pack.Pack_ p n b = (p', None) ->
  exists st, mkdir_all (pack.fs p) (go_dir (normalize n)) = (None, st) /\
    write_file st (normalize n) b = (None, pack.fs p') /\
    pack.h p' = <[normalize n := md5hex b]> (pack.h p) /\
    pack.manifest p' = pack.manifest p.
Proof.
  unfold pack.Pack_.
  destruct (mkdir_all (pack.fs p) (go_dir (normalize n))) as [[e|] st]; [discriminate|].
  destruct (write_file st (normalize n) b) as [[e|] st'] eqn:W; [discriminate|].
  intros H; inversion H; subst; simpl. eauto.
Qed.

(** C9: [Pack] strips all leading slashes and prepends one, so any number
    of leading slashes packs the same entry; a successful [Pack] records
    the MD5 hex digest of the payload under the normalized name and
    stores the payload at that path. *)
Theorem Pack_normalized_entry (p : pack.Pack) (n : string) (b : list byte) (k : nat)
  (Hok : snd (pack.Pack_ p n b) = None) :
  pack.Pack_ p (slashes k ++ n) b = pack.Pack_ p n b /\
  normalize n = String slash (trim_left_slash n) /\
  pack.h (fst (pack.Pack_ p n b)) !! normalize n = Some (md5hex b) /\
  read_file (pack.fs (fst (pack.Pack_ p n b))) (normalize n) = Some (NFile b).
Proof.
  split; [unfold pack.Pack_; now rewrite normalize_slashes|].
  split; [reflexivity|].
  destruct (pack.Pack_ p n b) as [p' [e|]] eqn:E; [discriminate|]. simpl.
  destruct (Pack_ok_inv p p' n b E) as (st & _ & W & Hh & _).
  apply write_file_ok in W as (Hst & _).
  rewrite Hh, Hst. unfold read_file.
  split; apply lookup_insert_eq.
Qed.

Definition root_store : gmap string node := {[ "/" := NDir ]}.

Lemma Pack_normalized_entry_witness :
  snd (pack.Pack_ (pack.New root_store) "foo" (bytes_of "x")) = None /\
  pack.Pack_ (pack.New root_store) (slashes 2 ++ "foo") (bytes_of "x")
    = pack.Pack_ (pack.New root_store) "foo" (bytes_of "x") /\
  normalize "foo" = "/foo".
Proof.
  assert (H : snd (pack.Pack_ (pack.New root_store) "foo" (bytes_of "x")) = None)
    by (vm_compute; reflexivity).
  split; [exact H|].
  destruct (Pack_normalized_entry (pack.New root_store) "foo" (bytes_of "x") 2 H) as [H1 [H2 _]].
  split; [exact H1 | exact H2].
Defined.

(* ------------------------------------------------------------------ *)
(** ** The IPC bridge *)

Module ipc_props.
Import ipc.

(** C4: a decoded request line gets exactly one response: a [call] without
    a string [name], without an [args] list, or naming an unregistered
    callback gets [{"error":...}]; a callback that succeeds gets
    [{"result":<value>}]; a type other than [list-functions] and [call]
    gets [{"error":"unknown request type"}]. *)
Theorem handle_decoded_request (m : gmap string callback) (ord : list string)
    (line : string) (rest : list string) (v : IpcMsg)
    (Hdec : decode_msg line = inl v) :
  handle m ord (line :: rest) = Wrote (respond m ord v) /\
  length (written (handle m ord (line :: rest))) = 1%nat /\
  (Type_ v = "call" -> (forall name, param v "name" <> Some (JString name)) ->
     exists e, respond m ord v = JObject [("error", JString e)]) /\
  (Type_ v = "call" -> (exists name, param v "name" = Some (JString name)) ->
     (forall args, param v "args" <> Some (JArray args)) ->
     exists e, respond m ord v = JObject [("error", JString e)]) /\
  (forall name args, Type_ v = "call" -> param v "name" = Some (JString name) ->
     param v "args" = Some (JArray args) -> m !! name = None ->
     exists e, respond m ord v = JObject [("error", JString e)]) /\
  (forall name args f res, Type_ v = "call" -> param v "name" = Some (JString name) ->
     param v "args" = Some (JArray args) -> m !! name = Some f -> f args = inl res ->
     respond m ord v = JObject [("result", res)]) /\
  (Type_ v <> "list-functions" -> Type_ v <> "call" ->
     respond m ord v = JObject [("error", JString "unknown request type")]).
Proof.
  assert (Hh : handle m ord (line :: rest) = Wrote (respond m ord v))
    by (simpl; now rewrite Hdec).
  assert (Hcall : Type_ v = "call" -> respond m ord v =
            match doCall m v with
            | inr e => JObject [("error", JString e)]
            | inl res => JObject [("result", res)]
            end) by (intros Ht; unfold respond; now rewrite Ht).
  split; [exact Hh|]. split; [now rewrite Hh|].
  split; [|split; [|split; [|split]]].
  - intros Ht Hn. rewrite (Hcall Ht). unfold doCall.
    destruct (param v "name") as [[]|]; eauto.
    exfalso; eapply Hn; reflexivity.
  - intros Ht [name Hn] Ha. rewrite (Hcall Ht). unfold doCall. rewrite Hn.
    destruct (param v "args") as [[]|]; eauto.
    exfalso; eapply Ha; reflexivity.
  - intros name args Ht Hn Ha Hm. rewrite (Hcall Ht). unfold doCall.
    rewrite Hn, Ha, Hm. eauto.
  - intros name args f res Ht Hn Ha Hm Hf. rewrite (Hcall Ht). unfold doCall.
    rewrite Hn, Ha, Hm, Hf. reflexivity.
  - intros H1 H2. unfold respond.
    destruct (String.eqb_spec (Type_ v) "list-functions"); [contradiction|].
    destruct (String.eqb_spec (Type_ v) "call"); [contradiction|]. reflexivity.
Qed.

Definition double_cb : callback :=
  fun args => match args with
              | [JNumber "21"] => inl (JNumber "42")
              | _ => inr "bad argument"
              end.

Definition demo_map : gmap string callback := {[ "double" := double_cb ]}.

(** a JSON string literal [s] *)
Definition quoted (s : string) : string := String jsondec.dquote (s ++ String jsondec.dquote EmptyString).

(** the request line [{"type":"call","params":{"name":"double","args":[21]}}] *)
Definition demo_call_line : string :=
  ("{" ++ quoted "type" ++ ":" ++ quoted "call" ++ "," ++ quoted "params" ++ ":{" ++
   quoted "name" ++ ":" ++ quoted "double" ++ "," ++ quoted "args" ++ ":[21]}}")%string.

Lemma handle_decoded_request_witness :
  decode_msg demo_call_line =
    inl (mkIpcMsg "call" (Some [("name", JString "double"); ("args", JArray [JNumber "21"])])) /\
  handle demo_map [] [demo_call_line] = Wrote (JObject [("result", JNumber "42")]).
Proof.
  assert (Hd : decode_msg demo_call_line =
    inl (mkIpcMsg "call" (Some [("name", JString "double"); ("args", JArray [JNumber "21"])])))
    by (vm_compute; reflexivity).
  split; [exact Hd|].
  destruct (handle_decoded_request demo_map [] demo_call_line [] _ Hd)
    as (H1 & _ & _ & _ & _ & H6 & _).
  rewrite H1, (H6 "double" [JNumber "21"] double_cb (JNumber "42")); reflexivity.
Defined.

(** C10: for a [list-functions] request, an empty callback map gives
    [{"result":null}] (the nil slice), and a non-empty one gives an array
    holding each registered name once, in the map's iteration order. *)
Theorem list_functions_response (m : gmap string callback) (ord : list string)
    (line : string) (rest : list string) (v : IpcMsg)
    (Hdec : decode_msg line = inl v) (Htype : Type_ v = "list-functions")
    (Hord : ord ≡ₚ (map_to_list m).*1) :
  (m = ∅ -> handle m ord (line :: rest) = Wrote (JObject [("result", JNull)])) /\
  (m <> ∅ -> exists names, handle m ord (line :: rest) =
       Wrote (JObject [("result", JArray (map JString names))]) /\
     names ≡ₚ (map_to_list m).*1 /\ NoDup names /\
     (forall name, name ∈ names <-> is_Some (m !! name))).
Proof.
  assert (Hh : handle m ord (line :: rest) = Wrote (JObject [("result", funcs_json ord)]))
    by (simpl; rewrite Hdec; unfold respond; now rewrite Htype).
  rewrite Hh. split.
  - intros ->. rewrite map_to_list_empty in Hord. simpl in Hord.
    symmetry in Hord. apply Permutation_nil in Hord. now subst.
  - intros Hne. exists ord.
    assert (Hnd : NoDup ord) by (rewrite Hord; apply NoDup_fst_map_to_list).
    repeat split; [| exact Hord | exact Hnd | |].
    + destruct ord as [|o os]; [|reflexivity].
      exfalso. apply Hne. apply map_to_list_empty_iff.
      apply Permutation_nil in Hord.
      destruct (map_to_list m); [reflexivity | discriminate].
    + intros Hin. rewrite Hord in Hin. apply list_elem_of_fmap in Hin as ([k x] & -> & Hkx).
      apply elem_of_map_to_list in Hkx. simpl. eauto.
    + intros [x Hx]. rewrite Hord. apply list_elem_of_fmap. exists (name, x).
      split; [reflexivity|]. now apply elem_of_map_to_list.
Qed.

(** [{"type":"list-functions"}] *)
Definition list_functions_line : string :=
  ("{" ++ quoted "type" ++ ":" ++ quoted "list-functions" ++ "}")%string.

Lemma list_functions_response_witness :
  decode_msg list_functions_line = inl (mkIpcMsg "list-functions" None) /\
  handle ∅ [] [list_functions_line] = Wrote (JObject [("result", JNull)]).
Proof.
  assert (Hd : decode_msg list_functions_line = inl (mkIpcMsg "list-functions" None))
    by (vm_compute; reflexivity).
  split; [exact Hd|].
  refine (proj1 (list_functions_response ∅ [] list_functions_line [] _ Hd eq_refl _) eq_refl).
  rewrite map_to_list_empty. reflexivity.
Defined.

(** a line is well-formed JSON: one value and nothing but white space after it *)
Definition well_formed_json (line : string) : bool :=
  let s := list_ascii_of_string line in
  match jsondec.value (S (length s)) s with
  | Some (_, r) => match jsondec.skip_ws r with [] => true | _ => false end
  | None => false
  end.

(** C5 (as stated): the empty request line is not well-formed JSON, and
    the handler writes no response for it. *)
Lemma malformed_line_no_response :
  well_formed_json EmptyString = false /\
  written (handle demo_map [] [EmptyString]) = [] /\
  ~ (forall (m : gmap string callback) ord line rest,
       well_formed_json line = false ->
       exists e, written (handle m ord (line :: rest)) = [JObject [("error", e)]]).
Proof.
  split; [reflexivity|]. split; [reflexivity|].
  intros H. destruct (H demo_map [] EmptyString [] eq_refl) as [e He].
  discriminate He.
Qed.

(** C5 (amended): a request line that fails to decode is logged and the
    connection is closed without any response; the accept loop drops the
    handler's error, so the other connections are served as before. *)
Theorem undecodable_line_closes_connection (m : gmap string callback) (ord : list string)
    (line : string) (rest : list string) (e : string)
    (Hdec : decode_msg line = inr e) :
  handle m ord (line :: rest) = DecodeFailed e /\
  written (handle m ord (line :: rest)) = [] /\
  forall before after,
    accept_loop m (before ++ (ord, line :: rest) :: after) =
    accept_loop m before ++ DecodeFailed e :: accept_loop m after.
Proof.
  assert (Hh : handle m ord (line :: rest) = DecodeFailed e) by (simpl; now rewrite Hdec).
  split; [exact Hh|]. split; [now rewrite Hh|].
  intros before after. unfold accept_loop. rewrite map_app. cbn [map]. now rewrite Hh.
Qed.

Lemma undecodable_line_closes_connection_witness :
  decode_msg "{" = inr "invalid character or unexpected end of JSON input" /\
  accept_loop demo_map [([], ["{"]); ([], [demo_call_line])] =
    [DecodeFailed "invalid character or unexpected end of JSON input";
     Wrote (JObject [("result", JNumber "42")])].
Proof.
  assert (Hd : decode_msg "{" = inr "invalid character or unexpected end of JSON input")
    by (vm_compute; reflexivity).
  split; [exact Hd|].
  pose proof (proj2 (proj2 (undecodable_line_closes_connection demo_map [] "{" [] _ Hd))
                [] [([], [demo_call_line])]) as H.
  simpl app in H. rewrite H. vm_compute. reflexivity.
Defined.

End ipc_props.

(* ------------------------------------------------------------------ *)
(** ** The image worker pool *)

Module images_props.
Import images.

(** [optimizeImage] failing on one file *)
Definition demo_optimize (fn : string) : option string :=
  if String.eqb fn "bad.png" then Some "exit status 1" else None.

(** C3: with two workers and the changed files [bad.png; b.png; c.png],
    where optimizing [bad.png] fails, there is a run in which the second
    worker's [select] takes the channel case after the context is
    cancelled and starts optimizing [b.png]; [eg.Wait()] still returns the
    first error. *)
Theorem pool_starts_item_after_cancel :
  exists p', rtc (step demo_optimize) (init 2 ["bad.png"; "b.png"; "c.png"]) p' /\
    ("b.png", true) ∈ started p' /\ finished p' = true /\
    first_err p' = Some "exit status 1".
Proof.
  eexists. split.
  - (* worker 0 receives bad.png *)
    eapply rtc_l.
    { apply (step_recv demo_optimize 0 _ "bad.png" ["b.png"; "c.png"]);
        [reflexivity | reflexivity | discriminate]. }
    (* it fails: errgroup keeps the error and cancels the context *)
    eapply rtc_l.
    { apply (step_fail demo_optimize 0 _ "bad.png" "exit status 1"); reflexivity. }
    (* worker 1 still receives b.png from the channel *)
    eapply rtc_l.
    { apply (step_recv demo_optimize 1 _ "b.png" ["c.png"]);
        [reflexivity | reflexivity | discriminate]. }
    eapply rtc_l.
    { apply (step_ok demo_optimize 1 _ "b.png"); reflexivity. }
    (* now it observes the cancellation *)
    eapply rtc_l.
    { apply (step_done demo_optimize 1 _); reflexivity. }
    apply rtc_refl.
  - vm_compute. split; [|split; reflexivity].
    right. left.
Qed.

End images_props.

(* ------------------------------------------------------------------ *)
(** ** [Manifest] on entries without a recorded hash *)

(** C7: [Manifest] panics (slicing the empty string [p.h[n][:6]]) on a
    store that holds a file [Pack] did not write, as with [NewBase] over
    a non-empty directory, and after packing a name that is not a clean
    path, whose walk name differs from the key in [p.h]. *)
Theorem Manifest_panics_on_unhashed_file :
  pack.Manifest (pack.New {[ "/" := NDir; "/old.css" := NFile (bytes_of "x") ]}) =
    Panic "runtime error: slice bounds out of range" /\
  snd (pack.pack_all (pack.New root_store) [("a//b.css", bytes_of "x")]) = None /\
  pack.Manifest (fst (pack.pack_all (pack.New root_store) [("a//b.css", bytes_of "x")])) =
    Panic "runtime error: slice bounds out of range".
Proof. vm_compute. repeat split. Qed.

(* ------------------------------------------------------------------ *)
(** ** The manifest walk *)

Module manifest_props.
Import pack.

Definition panic_msg : string := "runtime error: slice bounds out of range".

(** the walk callback keeps a non-directory entry whose base name is not
    the manifest name *)
Definition keep (p : Pack) (e : string * node) : bool :=
  negb (is_dir e.2 || String.eqb (go_base e.1) (manifest p)).

(** [p.h[n]] *)
Definition hv (p : Pack) (n : string) : string := default EmptyString (h p !! n).

(** a kept entry whose [p.h[n][:6]] panics *)
Definition bad (p : Pack) (e : string * node) : bool :=
  keep p e && (String.length (hv p e.1) <? 6)%nat.

Lemma walk_from_panic (p : Pack) (w : list (string * node)) (s : string) :
  fold_left (manifest_step p) w (Panic s) = Panic s.
Proof. induction w as [|e w IH]; simpl; auto. Qed.

Lemma walk_spec (p : Pack) (w : list (string * node)) (m0 : gmap string string) :
  (existsb (bad p) w = true /\ fold_left (manifest_step p) w (Ok m0) = Panic panic_msg) \/
  (existsb (bad p) w = false /\ exists m, fold_left (manifest_step p) w (Ok m0) = Ok m /\
     forall n, m !! n = if existsb (fun e => String.eqb e.1 n && keep p e) w
                        then Some (fingerprint n (hv p n)) else m0 !! n).
Proof.
  revert m0. induction w as [|[n nd] w IH]; intros m0.
  - simpl. right. split; [reflexivity|]. eexists; split; [reflexivity|]. reflexivity.
  - assert (Hbad : bad p (n, nd) = keep p (n, nd) && (String.length (hv p n) <? 6)%nat)
      by reflexivity.
    assert (Hstep : manifest_step p (Ok m0) (n, nd) =
      if keep p (n, nd) then
        (if (String.length (hv p n) <? 6)%nat then Panic panic_msg
         else Ok (<[n := fingerprint n (hv p n)]> m0))
      else Ok m0)
      by (unfold manifest_step, keep; simpl; destruct (is_dir nd || _); reflexivity).
    cbn [fold_left existsb]. rewrite Hbad, Hstep.
    destruct (keep p (n, nd)) eqn:Hk; cbn [andb orb fst].
    + destruct (String.length (hv p n) <? 6)%nat eqn:Hl; simpl.
      * left. split; [reflexivity|]. apply walk_from_panic.
      * destruct (IH (<[n := fingerprint n (hv p n)]> m0))
          as [[Hb Hw] | [Hb [m [Hw Hm]]]].
        -- left. split; [exact Hb | exact Hw].
        -- right. split; [exact Hb|]. exists m. split; [exact Hw|].
           intros n'. rewrite Hm. cbn [fst]. rewrite andb_true_r.
           destruct (existsb (fun e : string * node => (e.1 =? n')%string && keep p e) w).
           ++ rewrite orb_true_r. reflexivity.
           ++ rewrite orb_false_r. destruct (String.eqb_spec n n') as [<-|Hne].
              ** apply lookup_insert_eq.
              ** apply lookup_insert_ne. exact Hne.
    + destruct (IH m0) as [[Hb Hw] | [Hb [m [Hw Hm]]]].
      * left. split; [exact Hb | exact Hw].
      * right. split; [exact Hb|]. exists m. split; [exact Hw|].
        intros n'. rewrite Hm. rewrite andb_false_r. reflexivity.
Qed.

(** [existsb] over two walks agrees when the tests only look at the name
    and at whether the entry is a directory *)
Lemma existsb_walk_ext (f : string -> bool -> bool) (w1 w2 : list (string * node)) :
  (forall n d, (exists nd, In (n, nd) w1 /\ is_dir nd = d) <->
               (exists nd, In (n, nd) w2 /\ is_dir nd = d)) ->
  existsb (fun e => f e.1 (is_dir e.2)) w1 = existsb (fun e => f e.1 (is_dir e.2)) w2.
Proof.
  intros Hw.
  assert (Hdir : forall w w', (forall n d, (exists nd, In (n, nd) w /\ is_dir nd = d) ->
                                      (exists nd, In (n, nd) w' /\ is_dir nd = d)) ->
            existsb (fun e => f e.1 (is_dir e.2)) w = true ->
            existsb (fun e => f e.1 (is_dir e.2)) w' = true).
  { intros w w' Hww' Hex. apply existsb_exists in Hex as [[n nd] [Hin Hf]].
    destruct (Hww' n (is_dir nd) (ex_intro _ nd (conj Hin eq_refl))) as [nd' [Hin' Hd]].
    apply existsb_exists. exists (n, nd'). simpl in *. rewrite Hd. auto. }
  destruct (existsb _ w1) eqn:E1; destruct (existsb _ w2) eqn:E2; try reflexivity.
  - pose proof (Hdir w1 w2 (fun n d => proj1 (Hw n d)) E1). congruence.
  - pose proof (Hdir w2 w1 (fun n d => proj2 (Hw n d)) E2). congruence.
Qed.

Lemma walk_ext (p : Pack) (w1 w2 : list (string * node)) :
  (forall n d, (exists nd, In (n, nd) w1 /\ is_dir nd = d) <->
               (exists nd, In (n, nd) w2 /\ is_dir nd = d)) ->
  manifest_walk p w1 = manifest_walk p w2.
Proof.
  intros Hw. unfold manifest_walk.
  assert (Eb : existsb (bad p) w1 = existsb (bad p) w2).
  { exact (existsb_walk_ext (fun n d => negb (d || String.eqb (go_base n) (manifest p)) &&
                                        (String.length (hv p n) <? 6)%nat) w1 w2 Hw). }
  assert (Ek : forall n0, existsb (fun e => String.eqb e.1 n0 && keep p e) w1 =
                          existsb (fun e => String.eqb e.1 n0 && keep p e) w2).
  { intros n0. exact (existsb_walk_ext (fun n d => String.eqb n n0 &&
                        negb (d || String.eqb (go_base n) (manifest p))) w1 w2 Hw). }
  destruct (walk_spec p w1 ∅) as [[Hb1 Hw1] | [Hb1 [m1 [Hw1 Hm1]]]];
  destruct (walk_spec p w2 ∅) as [[Hb2 Hw2] | [Hb2 [m2 [Hw2 Hm2]]]];
  rewrite Hw1, Hw2; try congruence.
  f_equal. apply map_eq. intros n. rewrite Hm1, Hm2, Ek. reflexivity.
Qed.

(** the walk of [Manifest] sees each stored entry *)
Lemma in_map_to_list_iff (st : gmap string node) (n : string) (nd : node) :
  In (n, nd) (map_to_list st) <-> st !! n = Some nd.
Proof. rewrite <- list_elem_of_In. apply elem_of_map_to_list. Qed.

(** the shape of a store: which paths exist and which are directories *)
Definition shape (st : gmap string node) (q : string) : option bool := is_dir <$> st !! q.

Lemma Manifest_ext (p q : Pack) :
  manifest p = manifest q -> h p = h q ->
  (forall k, shape (fs p) k = shape (fs q) k) ->
  Manifest p = Manifest q.
Proof.
  intros Hm Hh Hs. unfold Manifest.
  transitivity (manifest_walk p (map_to_list (fs q))).
  - apply walk_ext. intros n d.
    specialize (Hs n). unfold shape in Hs.
    split; intros [nd [Hin Hd]]; apply in_map_to_list_iff in Hin.
    + rewrite Hin in Hs. destruct (fs q !! n) as [nd'|] eqn:E; [|discriminate].
      exists nd'. rewrite in_map_to_list_iff. simpl in Hs. injection Hs as Hs.
      split; [exact E | congruence].
    + rewrite Hin in Hs. destruct (fs p !! n) as [nd'|] eqn:E; [|discriminate].
      exists nd'. rewrite in_map_to_list_iff. simpl in Hs. injection Hs as Hs.
      split; [exact E | congruence].
  - unfold manifest_walk, manifest_step. rewrite Hm, Hh. reflexivity.
Qed.

Lemma existsb_keep_iff (p : Pack) (n : string) :
  existsb (fun e => String.eqb e.1 n && keep p e) (map_to_list (fs p)) = true <->
  (exists b, fs p !! n = Some (NFile b)) /\ go_base n <> manifest p.
Proof.
  rewrite existsb_exists. split.
  - intros [[n' nd] [Hin Hk]]. apply andb_true_iff in Hk as [Hn Hk].
    apply String.eqb_eq in Hn. simpl in Hn. subst n'.
    apply in_map_to_list_iff in Hin. unfold keep in Hk. simpl in Hk.
    apply negb_true_iff, orb_false_iff in Hk as [Hd Hb].
    destruct nd as [|b]; [discriminate|]. split; [eauto|].
    apply String.eqb_neq. exact Hb.
  - intros [[b Hb] Hn]. exists (n, NFile b). split; [now apply in_map_to_list_iff|].
    simpl. rewrite String.eqb_refl. unfold keep. simpl.
    apply String.eqb_neq in Hn. now rewrite Hn.
Qed.

Lemma Manifest_lookup (p : Pack) (m : gmap string string) (n : string) :
  Manifest p = Ok m ->
  ((exists b, fs p !! n = Some (NFile b)) /\ go_base n <> manifest p ->
     m !! n = Some (fingerprint n (hv p n))) /\
  (~ ((exists b, fs p !! n = Some (NFile b)) /\ go_base n <> manifest p) -> m !! n = None).
Proof.
  unfold Manifest, manifest_walk. intros HM.
  destruct (walk_spec p (map_to_list (fs p)) ∅) as [[_ Hw] | [_ [m' [Hw Hm]]]];
    rewrite Hw in HM; [discriminate|]. injection HM as ->.
  rewrite Hm. rewrite <- existsb_keep_iff. split.
  - intros ->. reflexivity.
  - destruct (existsb _ _); [intros H; exfalso; now apply H | intros _; apply lookup_empty].
Qed.

(** C6 (as stated): a packed file [css/manifest.json] is not the
    manifest's own file ([/manifest.json]), yet [Manifest] leaves it out. *)
Lemma Manifest_omits_nested_manifest_name :
  let p := fst (pack_all (New root_store) [("css/manifest.json", bytes_of "x")]) in
  snd (pack_all (New root_store) [("css/manifest.json", bytes_of "x")]) = None /\
  fs p !! "/css/manifest.json" = Some (NFile (bytes_of "x")) /\
  go_clean (manifest p) <> "/css/manifest.json" /\
  Manifest p = Ok ∅.
Proof. vm_compute. split; [reflexivity|]. split; [reflexivity|]. split; [discriminate | reflexivity]. Qed.

(** C6 (amended): whenever [Manifest] returns a map, its keys are exactly
    the stored non-directory entries whose base name differs from the
    configured manifest name. *)
Theorem Manifest_keys (p : Pack) (m : gmap string string) (HM : Manifest p = Ok m) (n : string) :
  is_Some (m !! n) <-> (exists b, fs p !! n = Some (NFile b)) /\ go_base n <> manifest p.
Proof.
  destruct (Manifest_lookup p m n HM) as [Hin Hout]. split.
  - intros [x Hx]. apply existsb_keep_iff.
    destruct (existsb _ _) eqn:E; [reflexivity|].
    assert (Hn : ~ ((exists b, fs p !! n = Some (NFile b)) /\ go_base n <> manifest p))
      by (rewrite <- existsb_keep_iff; congruence).
    rewrite (Hout Hn) in Hx. discriminate.
  - intros H. rewrite (Hin H). eauto.
Qed.

End manifest_props.

(* ------------------------------------------------------------------ *)
(** ** What a sequence of [Pack] calls leaves in the store *)

Module pack_props.
Import pack manifest_props.

Lemma mkdir_fold_some (qs : list string) (e : string) (st : gmap string node) :
  fold_left mkdir_step qs (Some e, st) = (Some e, st).
Proof. induction qs; simpl; auto. Qed.

Lemma mkdir_fold_none (qs : list string) (st st' : gmap string node) :
  fold_left mkdir_step qs (None, st) = (None, st') ->
  (forall q, In q qs -> st' !! q = Some NDir) /\
  (forall q, In q qs -> st !! q <> None -> st !! q = Some NDir) /\
  (forall q, ~ In q qs -> st' !! q = st !! q).
Proof.
  revert st. induction qs as [|q qs IH]; intros st H; simpl in H.
  - injection H as ->. split; [intros q []|]. split; [intros q []|]. auto.
  - destruct (st !! q) as [[|x]|] eqn:Eq; simpl in H.
    + destruct (IH st H) as (H1 & H2 & H3). split; [|split].
      * intros q' [<-|Hin]; [|auto]. destruct (in_dec string_dec q qs) as [Hq|Hq]; auto.
        rewrite H3; assumption.
      * intros q' [<-|Hin] Hne; [assumption|auto].
      * intros q' Hn. apply H3. intros Hin; apply Hn; now right.
    + rewrite mkdir_fold_some in H. discriminate.
    + destruct (IH _ H) as (H1 & H2 & H3). split; [|split].
      * intros q' [<-|Hin]; [|auto]. destruct (in_dec string_dec q qs) as [Hq|Hq]; auto.
        rewrite H3 by assumption. apply lookup_insert_eq.
      * intros q' [<-|Hin] Hne; [congruence|].
        destruct (String.eqb_spec q q') as [<-|Hqq]; [congruence|].
        specialize (H2 q' Hin). rewrite lookup_insert_ne in H2 by assumption. auto.
      * intros q' Hn. rewrite H3 by (intros Hin; apply Hn; now right).
        apply lookup_insert_ne. intros <-. apply Hn. now left.
Qed.

(** the directories [Pack] creates for [name], and the file it writes *)
Definition dirs_of (name : string) : list string := prefixes (clean_comps (go_dir (normalize name))).
Definition file_of (name : string) : string := go_clean (normalize name).

Lemma mkdir_all_files (st st' : gmap string node) (path : string) (r : option string) :
  mkdir_all st path = (r, st') ->
  forall q x, st !! q = Some (NFile x) -> st' !! q = Some (NFile x).
Proof.
  unfold mkdir_all. destruct (fold_left _ _ _) as [[e|] st''] eqn:E; intros H; injection H as <- <-;
    [auto|]. apply mkdir_fold_none in E as (H1 & H2 & H3).
  intros q x Hq. destruct (in_dec string_dec q (prefixes (clean_comps path))) as [Hin|Hin].
  - specialize (H2 q Hin). rewrite Hq in H2. discriminate H2. congruence.
  - rewrite H3; assumption.
Qed.

Lemma write_file_files (st st' : gmap string node) (path : string) (data : list byte)
    (r : option string) :
  write_file st path data = (r, st') ->
  forall q x, st !! q = Some (NFile x) -> exists y, st' !! q = Some (NFile y).
Proof.
  unfold write_file. intros H q x Hq.
  destruct (clean_comps path) as [|c cs]; [injection H as _ <-; eauto|].
  destruct (st !! path_of_comps (removelast (c :: cs))) as [[|z]|];
    destruct (st !! path_of_comps (c :: cs)) as [[|y]|]; injection H as _ <-; eauto;
    (destruct (String.eqb_spec (path_of_comps (c :: cs)) q) as [<-|Hne];
     [rewrite lookup_insert_eq; eauto | rewrite lookup_insert_ne by exact Hne; eauto]).
Qed.

(** any [Pack] call, failed or not, keeps every stored file a file, the
    manifest name, and every hash but the one of the packed name *)
Lemma Pack_keeps (p p' : Pack) (n : string) (b : list byte) (r : option string) :
  Pack_ p n b = (p', r) ->
  manifest p' = manifest p /\
  (forall k, k <> normalize n -> h p' !! k = h p !! k) /\
  (forall q x, fs p !! q = Some (NFile x) -> exists y, fs p' !! q = Some (NFile y)).
Proof.
  unfold Pack_.
  destruct (mkdir_all (fs p) (go_dir (normalize n))) as [[e|] st] eqn:M.
  - intros H. injection H as <- _. simpl. split; [reflexivity|]. split; [reflexivity|].
    intros q x Hq. exists x. exact (mkdir_all_files _ _ _ _ M q x Hq).
  - destruct (write_file st (normalize n) b) as [[e|] st'] eqn:W;
      intros H; injection H as <- _; simpl; (split; [reflexivity|]);
      (split; [try reflexivity; intros k Hk; now rewrite lookup_insert_ne by congruence|]);
      intros q x Hq; exact (write_file_files _ _ _ _ _ W q x (mkdir_all_files _ _ _ _ M q x Hq)).
Qed.

Lemma pack_all_app (p p' : Pack) (l1 l2 : list (string * list byte)) :
  pack_all p (l1 ++ l2) = (p', None) ->
  exists p1, pack_all p l1 = (p1, None) /\ pack_all p1 l2 = (p', None).
Proof.
  revert p. induction l1 as [|[n b] l1 IH]; intros p H; simpl in *; [eauto|].
  destruct (Pack_ p n b) as [p1 [e|]]; [discriminate | auto].
Qed.

Lemma pack_all_keeps (p p' : Pack) (l : list (string * list byte)) (r : option string) :
  pack_all p l = (p', r) ->
  manifest p' = manifest p /\
  (forall k, Forall (fun e => k <> normalize e.1) l -> h p' !! k = h p !! k) /\
  (forall q x, fs p !! q = Some (NFile x) -> exists y, fs p' !! q = Some (NFile y)).
Proof.
  revert p. induction l as [|[n b] l IH]; intros p H; simpl in H.
  - injection H as <- _. split; [reflexivity|]. split; [reflexivity|]. eauto.
  - destruct (Pack_ p n b) as [p1 [e|]] eqn:E;
      destruct (Pack_keeps p p1 n b _ E) as (Hm1 & Hh1 & Hf1).
    + injection H as <- _. split; [exact Hm1|]. split; [|exact Hf1].
      intros k Hk. inversion Hk; subst. auto.
    + destruct (IH p1 H) as (Hm & Hh & Hf). split; [congruence|]. split.
      * intros k Hk. inversion Hk; subst. rewrite Hh by assumption. auto.
      * intros q x Hq. destruct (Hf1 q x Hq) as [y Hy]. eauto.
Qed.

(** a successful [Pack] turns the directories of [name] into directories
    and its file into a file, leaving every other path as it was; it only
    succeeds when none of those directories was a file and the file was
    not a directory *)
Lemma Pack_shape (p p' : Pack) (n : string) (b : list byte) :
  Pack_ p n b = (p', None) ->
  (forall q, shape (fs p') q =
     if String.eqb (file_of n) q then Some false
     else if in_dec string_dec q (dirs_of n) then Some true else shape (fs p) q) /\
  (forall q, In q (dirs_of n) -> shape (fs p) q <> Some false) /\
  shape (fs p) (file_of n) <> Some true.
Proof.
  intros E. destruct (Pack_ok_inv p p' n b E) as (st & M & W & _).
  unfold mkdir_all in M. fold (dirs_of n) in M.
  destruct (fold_left mkdir_step (dirs_of n) (None, fs p)) as [[e|] st0] eqn:F;
    [discriminate|]. injection M as <-.
  apply mkdir_fold_none in F as (H1 & H2 & H3).
  apply write_file_ok in W as (Hst & Hnd & _). fold (file_of n) in Hst, Hnd.
  unfold shape. split; [|split].
  - intros q. rewrite Hst. destruct (String.eqb_spec (file_of n) q) as [<-|Hne].
    + rewrite lookup_insert_eq. reflexivity.
    + rewrite lookup_insert_ne by exact Hne.
      destruct (in_dec string_dec q (dirs_of n)) as [Hin|Hin].
      * rewrite H1 by exact Hin. reflexivity.
      * rewrite H3 by exact Hin. reflexivity.
  - intros q Hin Hq. destruct (fs p !! q) as [nd|] eqn:Eq; [|discriminate].
    pose proof (H2 q Hin ltac:(congruence)) as Hd. rewrite Eq in Hd.
    injection Hd as ->. discriminate.
  - intros Hq. destruct (fs p !! file_of n) as [[|x]|] eqn:Eq; try discriminate.
    destruct (in_dec string_dec (file_of n) (dirs_of n)) as [Hin|Hin].
    + apply Hnd, H1, Hin.
    + apply Hnd. rewrite H3 by exact Hin. exact Eq.
Qed.

(** the paths a sequence of [Pack] calls writes as files, and the ones it
    creates as directories *)
Definition in_files (l : list (string * list byte)) (q : string) : bool :=
  existsb (fun e => String.eqb (file_of e.1) q) l.
Definition in_dirs (l : list (string * list byte)) (q : string) : bool :=
  existsb (fun e => if in_dec string_dec q (dirs_of e.1) then true else false) l.

Lemma pack_all_shape (p p' : Pack) (l : list (string * list byte)) :
  pack_all p l = (p', None) ->
  forall q, shape (fs p') q =
    if in_files l q then Some false else if in_dirs l q then Some true else shape (fs p) q.
Proof.
  assert (G : forall p, pack_all p l = (p', None) ->
    forall q, (shape (fs p') q =
      if in_files l q then Some false else if in_dirs l q then Some true else shape (fs p) q) /\
     (in_dirs l q = true -> shape (fs p) q <> Some false) /\
     (in_files l q = true -> shape (fs p) q <> Some true)).
  { induction l as [|[n b] l IH]; intros p0 H q; simpl in H.
    - injection H as <-. simpl. split; [reflexivity|]. split; discriminate.
    - destruct (Pack_ p0 n b) as [p1 [e|]] eqn:E; [discriminate|].
      destruct (Pack_shape p0 p1 n b E) as (S1 & A1 & A4).
      destruct (IH p1 H q) as (S & D & F). unfold in_files, in_dirs in *.
      cbn [existsb fst]. fold (in_files l q) (in_dirs l q) in *.
      rewrite S. rewrite S1 in D, F |- *.
      destruct (in_files l q), (in_dirs l q);
        destruct (in_dec string_dec q (dirs_of n)) as [Hin|Hin];
        destruct (String.eqb_spec (file_of n) q) as [<-|Hne]; cbn [orb] in *;
        repeat split; intros; try congruence; try (now apply A1); try (now apply A4);
        try (exfalso; now apply (D eq_refl)); try (exfalso; now apply (F eq_refl));
        try exact (D eq_refl); try exact (F eq_refl). }
  intros H q. exact (proj1 (G p H q)).
Qed.

(** after a sequence of successful [Pack] calls with distinct normalized
    names, [p.h] maps each packed name to the hash of its payload *)
Lemma pack_all_h (p p' : Pack) (l : list (string * list byte)) :
  pack_all p l = (p', None) -> NoDup (map (fun e => normalize e.1) l) ->
  forall e, In e l -> h p' !! normalize e.1 = Some (md5hex e.2).
Proof.
  revert p. induction l as [|[n b] l IH]; intros p0 H Hnd e Hin; [destruct Hin|].
  simpl in H. inversion Hnd as [|x y Hn Hnd']; subst.
  destruct (Pack_ p0 n b) as [p1 [r|]] eqn:E; [discriminate|].
  destruct Hin as [<-|Hin]; [|exact (IH p1 H Hnd' e Hin)].
  destruct (Pack_ok_inv p0 p1 n b E) as (_ & _ & _ & Hh1 & _).
  destruct (pack_all_keeps p1 p' l None H) as (_ & Hh & _).
  simpl. rewrite Hh, Hh1 by (apply Forall_forall; intros e' He' Heq;
    apply list_elem_of_In in He'; apply Hn; rewrite Heq;
    apply list_elem_of_In, (in_map (fun e => normalize e.1)), He').
  apply lookup_insert_eq.
Qed.

Lemma existsb_perm {A} (f : A -> bool) (l l' : list A) :
  l ≡ₚ l' -> existsb f l = existsb f l'.
Proof.
  induction 1; simpl; try congruence.
  destruct (f x), (f y); reflexivity.
Qed.

(** the store of [p] after a successful [pack_all] run reads every path
    the same whichever order the entries are packed in *)
Lemma pack_all_perm_shape (p p1 p2 : Pack) (l l' : list (string * list byte)) :
  l ≡ₚ l' -> pack_all p l = (p1, None) -> pack_all p l' = (p2, None) ->
  forall q, shape (fs p1) q = shape (fs p2) q.
Proof.
  intros Hp H1 H2 q. rewrite (pack_all_shape _ _ _ H1), (pack_all_shape _ _ _ H2).
  unfold in_files, in_dirs. rewrite !(existsb_perm _ l l' Hp). reflexivity.
Qed.

Lemma pack_all_perm_h (p p1 p2 : Pack) (l l' : list (string * list byte)) :
  l ≡ₚ l' -> NoDup (map (fun e => normalize e.1) l) ->
  pack_all p l = (p1, None) -> pack_all p l' = (p2, None) ->
  h p1 = h p2.
Proof.
  intros Hp Hnd H1 H2.
  assert (Hnd' : NoDup (map (fun e => normalize e.1) l'))
    by exact (proj1 (NoDup_Permutation_proper _ _ (Permutation_map _ Hp)) Hnd).
  apply map_eq. intros k.
  destruct (existsb (fun e => String.eqb (normalize e.1) k) l) eqn:E.
  - apply existsb_exists in E as [e [He Hk]]. apply String.eqb_eq in Hk. subst k.
    rewrite (pack_all_h _ _ _ H1 Hnd e He).
    rewrite (pack_all_h _ _ _ H2 Hnd' e (Permutation_in _ Hp He)). reflexivity.
  - assert (Hf : forall l0, l ≡ₚ l0 -> Forall (fun e => k <> normalize e.1) l0).
    { intros l0 Hl0. apply Forall_forall. intros e He Hk.
      assert (existsb (fun e => String.eqb (normalize e.1) k) l0 = true)
        by (apply existsb_exists; exists e; split; [apply list_elem_of_In, He | apply String.eqb_eq; congruence]).
      rewrite <- (existsb_perm _ _ _ Hl0) in H. congruence. }
    destruct (pack_all_keeps _ _ _ _ H1) as (_ & Hh1 & _).
    destruct (pack_all_keeps _ _ _ _ H2) as (_ & Hh2 & _).
    rewrite Hh1, Hh2 by (apply Hf; first [exact Hp | reflexivity]). reflexivity.
Qed.

Lemma trim_left_slash_idem (s : string) : trim_left_slash (trim_left_slash s) = trim_left_slash s.
Proof.
  induction s as [|c r IH]; simpl; [reflexivity|].
  destruct (Ascii.eqb c slash) eqn:E; [exact IH|]. simpl. rewrite E. reflexivity.
Qed.

Lemma trim_left_slash_normalize (n : string) : trim_left_slash (normalize n) = trim_left_slash n.
Proof.
  change (trim_left_slash (trim_left_slash n) = trim_left_slash n). apply trim_left_slash_idem.
Qed.

(** [ManifestInverted] inverts the pairs of the manifest in iteration
    order: when no key repeats, the inverted map holds exactly the
    reversed pairs *)
Lemma invert_fold_lookup (l : list (string * string)) (acc : gmap string string) (k v : string) :
  NoDup (map snd l) ->
  fold_left (fun rev '(v, k) => <[k := v]> rev) l acc !! k = Some v <->
  In (v, k) l \/ (acc !! k = Some v /\ ~ In k (map snd l)).
Proof.
  revert acc. induction l as [|[v' k'] l IH]; intros acc Hnd; simpl.
  - split; [intros H; right; split; [exact H | intros []] | intros [[]|[H _]]; exact H].
  - inversion Hnd as [|x y Hn Hnd']; subst.
    assert (Hn' : ~ In k' (map snd l)) by (rewrite <- list_elem_of_In; exact Hn).
    rewrite IH by exact Hnd'.
    destruct (String.eqb_spec k' k) as [<-|Hne].
    + rewrite lookup_insert_eq. split.
      * intros [Hin | [Hv _]]; [left; right; exact Hin|].
        injection Hv as <-. left; left; reflexivity.
      * intros [[Heq | Hin] | [_ Hni]].
        -- injection Heq as <-. right. split; [reflexivity | exact Hn'].
        -- left; exact Hin.
        -- exfalso; apply Hni; left; reflexivity.
    + rewrite lookup_insert_ne by exact Hne. split.
      * intros [Hin | [Hv Hni]]; [left; right; exact Hin|].
        right; split; [exact Hv|]. intros [Heq|Hin]; [congruence | exact (Hni Hin)].
      * intros [[Heq | Hin] | [Hv Hni]].
        -- injection Heq as _ ->. congruence.
        -- left; exact Hin.
        -- right; split; [exact Hv|]. intros Hin; apply Hni; right; exact Hin.
Qed.

Lemma invert_lookup (l : list (string * string)) (k v : string) :
  NoDup (map snd l) -> invert l !! k = Some v <-> In (v, k) l.
Proof.
  intros Hnd. unfold invert. rewrite (invert_fold_lookup l ∅ k v Hnd).
  rewrite lookup_empty. split; [intros [H|[H _]]; [exact H | discriminate] | auto].
Qed.

(** no two keys of [m] share a value *)
Definition values_distinct (m : gmap string string) : Prop :=
  forall k1 k2 v, m !! k1 = Some v -> m !! k2 = Some v -> k1 = k2.

Lemma values_distinct_NoDup (m : gmap string string) :
  values_distinct m -> NoDup (map snd (map_to_list m)).
Proof.
  intros Hinj. apply (NoDup_fmap_2_strong snd); [|apply NoDup_map_to_list].
  intros [a c] [a' c'] Ha Ha' Hc. simpl in Hc. subst c'.
  apply elem_of_map_to_list in Ha, Ha'. f_equal. exact (Hinj a a' c Ha Ha').
Qed.

Lemma NoDup_values_distinct (m : gmap string string) :
  NoDup (map snd (map_to_list m)) -> values_distinct m.
Proof.
  intros Hnd k1 k2 v H1 H2.
  apply elem_of_map_to_list, list_elem_of_In in H1, H2.
  revert Hnd H1 H2. generalize (map_to_list m) as l.
  induction l as [|[a c] l IH]; intros Hnd H1 H2; [destruct H1|].
  inversion Hnd as [|x y Hn Hnd']; subst.
  assert (Hc : forall a', In (a', v) l -> c <> v).
  { intros a' Hin <-. apply Hn, list_elem_of_In, (in_map snd l (a', c)), Hin. }
  destruct H1 as [E1|H1]; destruct H2 as [E2|H2].
  - congruence.
  - injection E1 as -> ->. exfalso; exact (Hc k2 H2 eq_refl).
  - injection E2 as -> ->. exfalso; exact (Hc k1 H1 eq_refl).
  - exact (IH Hnd' H1 H2).
Qed.

(** inverting any iteration order of a map whose values are distinct *)
Lemma invert_perm (r : gmap string string) (l : list (string * string)) :
  values_distinct r -> l ≡ₚ map_to_list r ->
  forall k v, invert l !! k = Some v <-> r !! v = Some k.
Proof.
  intros Hinj Hp k v.
  assert (Hnd : NoDup (map snd l))
    by exact (proj2 (NoDup_Permutation_proper _ _ (Permutation_map _ Hp)) (values_distinct_NoDup r Hinj)).
  rewrite (invert_lookup l k v Hnd).
  rewrite <- elem_of_map_to_list, list_elem_of_In.
  split; [apply Permutation_in, Hp | apply Permutation_in, Permutation_sym, Hp].
Qed.

Lemma invert_values_distinct (r : gmap string string) (l : list (string * string)) :
  values_distinct r -> l ≡ₚ map_to_list r -> values_distinct (invert l).
Proof.
  intros Hinj Hp k1 k2 v H1 H2.
  apply (invert_perm r l Hinj Hp) in H1, H2. congruence.
Qed.

(** a store holding [/js/app.js] and [/css/app.css] *)
Definition demo_entries : list (string * list byte) :=
  [("/js/app.js", bytes_of "a"); ("css/app.css", bytes_of "b")].
Definition demo_pack : Pack := fst (pack_all (New root_store) demo_entries).
Definition demo_manifest : gmap string string :=
  match Manifest demo_pack with Ok m => m | _ => ∅ end.

(** the hash recorded for an entry not packed again later under the same
    normalized name is the MD5 of its payload *)
Lemma last_packed_h (p p' : Pack) (l1 l2 : list (string * list byte)) (n : string) (b : list byte)
    (Hpack : pack_all p (l1 ++ (n, b) :: l2) = (p', None))
    (Hlast : Forall (fun e => normalize n <> normalize e.1) l2) :
  h p' !! normalize n = Some (md5hex b).
Proof.
  destruct (pack_all_app p p' l1 ((n, b) :: l2) Hpack) as (p1 & _ & H2).
  simpl in H2. destruct (Pack_ p1 n b) as [p2 [e|]] eqn:E; [discriminate|].
  destruct (Pack_ok_inv p1 p2 n b E) as (st & _ & _ & Hh2 & _).
  destruct (pack_all_keeps _ _ _ _ H2) as (_ & Hh' & _).
  rewrite Hh' by exact Hlast. rewrite Hh2. apply lookup_insert_eq.
Qed.

(** [Manifest] maps a packed entry's normalized name to its fingerprint *)
Lemma packed_lookup (p p' : Pack) (m : gmap string string)
    (l1 l2 : list (string * list byte)) (n : string) (b : list byte)
    (Hpack : pack_all p (l1 ++ (n, b) :: l2) = (p', None))
    (Hlast : Forall (fun e => normalize n <> normalize e.1) l2)
    (Hclean : go_clean (normalize n) = normalize n)
    (Hbase : go_base (normalize n) <> manifest p)
    (HM : Manifest p' = Ok m) :
  m !! normalize n = Some (fingerprint (normalize n) (md5hex b)).
Proof.
  destruct (pack_all_app p p' l1 ((n, b) :: l2) Hpack) as (p1 & H1 & H2).
  simpl in H2. destruct (Pack_ p1 n b) as [p2 [e|]] eqn:E; [discriminate|].
  destruct (Pack_ok_inv p1 p2 n b E) as (st & _ & W & Hh2 & Hm2).
  apply write_file_ok in W as (Hst & _). rewrite Hclean in Hst.
  destruct (pack_all_keeps _ _ _ _ H1) as (Hm1 & _ & _).
  destruct (pack_all_keeps _ _ _ _ H2) as (Hm' & Hh' & Hf').
  assert (Hfile : exists y, fs p' !! normalize n = Some (NFile y)).
  { apply (Hf' (normalize n) b). rewrite Hst. apply lookup_insert_eq. }
  destruct (Manifest_lookup p' m (normalize n) HM) as [Hin _].
  rewrite Hin by (split; [exact Hfile | congruence]).
  unfold hv. rewrite Hh' by exact Hlast. rewrite Hh2, lookup_insert_eq. reflexivity.
Qed.

(** C1 (as stated): a packed entry whose base name equals the manifest
    name, [js/manifest.json] here, gets no fingerprint. *)
Lemma Manifest_skips_packed_entry :
  let l := [("/js/app.js", bytes_of "a"); ("js/manifest.json", bytes_of "b")] in
  snd (pack_all (New root_store) l) = None /\
  Manifest (fst (pack_all (New root_store) l)) =
    Ok {[ "/js/app.js" := fingerprint "/js/app.js" (md5hex (bytes_of "a")) ]}.
Proof. vm_compute. split; reflexivity. Qed.

(** C1 (amended): after a successful run of [Pack] calls, an entry [(n, b)]
    not packed again under the same normalized name, whose normalized name
    is already clean and whose base name is not the manifest name, is
    mapped by [Manifest] from its normalized name to the MD5 prefix of the
    name without leading slashes, a dot, the MD5 prefix of [b], and the
    extension; and no name whose base name is the manifest name has a key
    in the manifest, so a packed entry with that base name gets none. *)
Theorem Manifest_fingerprint_of_packed (p p' : Pack) (m : gmap string string)
    (l1 l2 : list (string * list byte)) (n : string) (b : list byte)
    (Hpack : pack_all p (l1 ++ (n, b) :: l2) = (p', None))
    (HM : Manifest p' = Ok m) :
  (Forall (fun e => normalize n <> normalize e.1) l2 ->
   go_clean (normalize n) = normalize n ->
   go_base (normalize n) <> manifest p ->
   m !! normalize n =
     Some (prefix6 (md5hex (bytes_of (trim_left_slash n))) ++ "." ++
           prefix6 (md5hex b) ++ go_ext (normalize n))%string) /\
  (forall k, go_base k = manifest p -> m !! k = None).
Proof.
  split.
  - intros Hlast Hclean Hbase.
    rewrite (packed_lookup p p' m l1 l2 n b Hpack Hlast Hclean Hbase HM).
    unfold fingerprint. rewrite trim_left_slash_normalize. reflexivity.
  - intros k Hk. destruct (pack_all_keeps _ _ _ _ Hpack) as (Hm' & _).
    apply (proj2 (Manifest_lookup p' m k HM)). intros [_ Hb]. congruence.
Qed.

(** C2 (as stated): packing [a.css] and [/a.css], two names of the same
    entry, in the two orders gives two different manifests. *)
Lemma Manifest_depends_on_pack_order :
  let l := [("a.css", bytes_of "x"); ("/a.css", bytes_of "y")] in
  let l' := [("/a.css", bytes_of "y"); ("a.css", bytes_of "x")] in
  l ≡ₚ l' /\
  snd (pack_all (New root_store) l) = None /\ snd (pack_all (New root_store) l') = None /\
  Manifest (fst (pack_all (New root_store) l)) =
    Ok {[ "/a.css" := fingerprint "/a.css" (md5hex (bytes_of "y")) ]} /\
  Manifest (fst (pack_all (New root_store) l')) =
    Ok {[ "/a.css" := fingerprint "/a.css" (md5hex (bytes_of "x")) ]} /\
  fingerprint "/a.css" (md5hex (bytes_of "x")) <> fingerprint "/a.css" (md5hex (bytes_of "y")).
Proof.
  intros l l'. split; [apply perm_swap|].
  vm_compute. split; [reflexivity|]. split; [reflexivity|].
  split; [reflexivity|]. split; [reflexivity | discriminate].
Qed.

(** C2 (amended): two successful runs packing the same entries in any
    two orders give the same [Manifest] when the normalized names are
    distinct; every walk order of the store gives that same result; and
    among entries with the same normalized name the last one packed wins:
    its payload's MD5 is the recorded hash and, for a clean name that is
    not the manifest name, its fingerprint is the manifest's value. *)
Theorem Manifest_order_independent (p p1 p2 : Pack) (l l' : list (string * list byte))
    (Hperm : l ≡ₚ l')
    (H1 : pack_all p l = (p1, None)) (H2 : pack_all p l' = (p2, None)) :
  (NoDup (map (fun e => normalize e.1) l) -> Manifest p1 = Manifest p2) /\
  (forall w, w ≡ₚ map_to_list (fs p1) -> manifest_walk p1 w = Manifest p1) /\
  (forall l1 l2 n b, l = l1 ++ (n, b) :: l2 ->
     Forall (fun e => normalize n <> normalize e.1) l2 ->
     h p1 !! normalize n = Some (md5hex b) /\
     (forall m, Manifest p1 = Ok m -> go_clean (normalize n) = normalize n ->
        go_base (normalize n) <> manifest p ->
        m !! normalize n = Some (fingerprint (normalize n) (md5hex b)))).
Proof.
  split; [|split].
  - intros Hnd. apply Manifest_ext.
    + destruct (pack_all_keeps _ _ _ _ H1) as (Hm1 & _).
      destruct (pack_all_keeps _ _ _ _ H2) as (Hm2 & _). congruence.
    + exact (pack_all_perm_h p p1 p2 l l' Hperm Hnd H1 H2).
    + exact (pack_all_perm_shape p p1 p2 l l' Hperm H1 H2).
  - intros w Hw. unfold Manifest. apply walk_ext. intros n d.
    split; intros [nd [Hin Hd]]; exists nd; split; try exact Hd.
    + exact (Permutation_in _ Hw Hin).
    + exact (Permutation_in _ (Permutation_sym Hw) Hin).
  - intros l1 l2 n b -> Hlast. split.
    + exact (last_packed_h p p1 l1 l2 n b H1 Hlast).
    + intros m HM Hclean Hbase. exact (packed_lookup p p1 m l1 l2 n b H1 Hlast Hclean Hbase HM).
Qed.

(** C8: when no two names of the manifest share a fingerprint,
    [ManifestInverted] returns the inversion of the manifest, and
    inverting the inverted map again, in any iteration orders, gives back
    the manifest. *)
Theorem ManifestInverted_roundtrip (p : Pack) (m : gmap string string)
    (HM : Manifest p = Ok m) (Hinj : values_distinct m) :
  ManifestInverted p = Ok (invert (map_to_list m)) /\
  forall l1, l1 ≡ₚ map_to_list m -> forall l2, l2 ≡ₚ map_to_list (invert l1) -> invert l2 = m.
Proof.
  split; [unfold ManifestInverted; rewrite HM; reflexivity|].
  intros l1 Hl1 l2 Hl2. apply map_eq. intros v. apply option_eq. intros k.
  rewrite (invert_perm (invert l1) l2 (invert_values_distinct m l1 Hinj Hl1) Hl2 v k).
  exact (invert_perm m l1 Hinj Hl1 k v).
Qed.

Lemma Manifest_fingerprint_of_packed_witness :
  demo_manifest !! "/css/app.css" =
    Some (prefix6 (md5hex (bytes_of "css/app.css")) ++ "." ++
          prefix6 (md5hex (bytes_of "b")) ++ ".css")%string /\
  demo_manifest !! "/js/manifest.json" = None.
Proof.
  destruct (Manifest_fingerprint_of_packed (New root_store) demo_pack demo_manifest
    [("/js/app.js", bytes_of "a")] [] "css/app.css" (bytes_of "b")
    ltac:(vm_compute; reflexivity) ltac:(vm_compute; reflexivity)) as [Hf Hk].
  split.
  - exact (Hf (List.Forall_nil _) ltac:(vm_compute; reflexivity) ltac:(vm_compute; discriminate)).
  - exact (Hk "/js/manifest.json" ltac:(vm_compute; reflexivity)).
Defined.

Lemma Manifest_order_independent_witness :
  Manifest demo_pack =
    Manifest (fst (pack_all (New root_store) [("css/app.css", bytes_of "b"); ("/js/app.js", bytes_of "a")])) /\
  h (fst (pack_all (New root_store) [("a.css", bytes_of "x"); ("/a.css", bytes_of "y")])) !! "/a.css" =
    Some (md5hex (bytes_of "y")).
Proof.
  split.
  - apply (proj1 (Manifest_order_independent (New root_store) demo_pack
      (fst (pack_all (New root_store) [("css/app.css", bytes_of "b"); ("/js/app.js", bytes_of "a")]))
      demo_entries [("css/app.css", bytes_of "b"); ("/js/app.js", bytes_of "a")]
      (perm_swap _ _ _) ltac:(vm_compute; reflexivity) ltac:(vm_compute; reflexivity))).
    apply (bool_decide_unpack _); vm_compute; exact I.
  - exact (proj1 (proj2 (proj2 (Manifest_order_independent (New root_store)
      (fst (pack_all (New root_store) [("a.css", bytes_of "x"); ("/a.css", bytes_of "y")]))
      (fst (pack_all (New root_store) [("/a.css", bytes_of "y"); ("a.css", bytes_of "x")]))
      [("a.css", bytes_of "x"); ("/a.css", bytes_of "y")]
      [("/a.css", bytes_of "y"); ("a.css", bytes_of "x")]
      (perm_swap _ _ _) ltac:(vm_compute; reflexivity) ltac:(vm_compute; reflexivity)))
      [("a.css", bytes_of "x")] [] "/a.css" (bytes_of "y") eq_refl (List.Forall_nil _))).
Defined.

Lemma ManifestInverted_roundtrip_witness :
  ManifestInverted demo_pack = Ok (invert (map_to_list demo_manifest)) /\
  invert (map_to_list (invert (map_to_list demo_manifest))) = demo_manifest.
Proof.
  destruct (ManifestInverted_roundtrip demo_pack demo_manifest ltac:(vm_compute; reflexivity)
    (NoDup_values_distinct demo_manifest ltac:(apply (bool_decide_unpack _); vm_compute; exact I))) as [H1 H2].
  split; [exact H1 | apply (H2 (map_to_list demo_manifest)); reflexivity].
Defined.

Lemma Manifest_keys_witness :
  is_Some (demo_manifest !! "/css/app.css") <->
  (exists b, fs demo_pack !! "/css/app.css" = Some (NFile b)) /\ go_base "/css/app.css" <> manifest demo_pack.
Proof. exact (Manifest_keys demo_pack demo_manifest ltac:(vm_compute; reflexivity) "/css/app.css"). Defined.

End pack_props.


(* ------------------------------------------------------------------ *)
(** ** Invariants of the image worker pool *)

Module pool_props.
Import images.

Lemma ret_ch (p : pool) (i : nat) (e : option string) : ch (ret p i e) = ch p.
Proof. unfold ret, record_err. destruct e, (first_err p); reflexivity. Qed.

Lemma ret_started (p : pool) (i : nat) (e : option string) : started (ret p i e) = started p.
Proof. unfold ret, record_err. destruct e, (first_err p); reflexivity. Qed.

Lemma ret_workers (p : pool) (i : nat) (e : option string) :
  workers (ret p i e) = <[i := Returned e]> (workers p).
Proof. unfold ret, record_err. destruct e, (first_err p); reflexivity. Qed.

Lemma ret_first_err (p : pool) (i : nat) (e : option string) :
  first_err (ret p i e) = match first_err p with Some x => Some x | None => e end.
Proof. unfold ret, record_err. destruct e, (first_err p); reflexivity. Qed.

Lemma ret_cancelled (p : pool) (i : nat) (e : option string) :
  cancelled (ret p i e) = match e, first_err p with Some _, None => true | _, _ => cancelled p end.
Proof. unfold ret, record_err. destruct e, (first_err p); reflexivity. Qed.

Lemma In_map_fst_app (l : list (string * bool)) (x : string * bool) (fn : string) :
  In fn (map fst (l ++ [x])) <-> In fn (map fst l) \/ fn = x.1.
Proof. rewrite map_app, in_app_iff. simpl. intuition. Qed.

(** a lookup in a list after [<[i := w]>] *)
Ltac ins_case H i j :=
  rewrite ?ret_workers in H; apply list_lookup_insert_Some in H as [(<- & H & _) | (? & H)].

Section Run.

Variable optimizeImage : string -> option string.
Variable k : nat.
Variable changed : list string.
(** the changed files are named by the walk, never by the empty string *)
Hypothesis Hnonempty : ~ In EmptyString changed.

(** what holds at every point of a run started by [init k changed] *)
Record Inv (p : pool) : Prop := {
  inv_queue : map fst (started p) ++ ch p = changed;
  inv_cancel : cancelled p = true <-> is_Some (first_err p);
  inv_err : forall e, first_err p = Some e ->
    exists fn, In fn (map fst (started p)) /\ optimizeImage fn = Some e;
  inv_ok : first_err p = None -> forall fn, In fn (map fst (started p)) ->
    optimizeImage fn = None \/ exists i, workers p !! i = Some (Optimizing fn);
  inv_busy : forall i fn, workers p !! i = Some (Optimizing fn) -> In fn (map fst (started p));
  inv_nil : forall i, workers p !! i = Some (Returned None) -> ch p = [];
  inv_some : forall i e, workers p !! i = Some (Returned (Some e)) -> is_Some (first_err p);
  inv_flag : forall x, In x (started p) -> x.2 = true -> is_Some (first_err p);
  inv_len : length (workers p) = k
}.

Lemma lookup_repeat_selecting (n i : nat) (w : worker) :
  repeat Selecting n !! i = Some w -> w = Selecting.
Proof. intros H. apply list_elem_of_lookup_2, list_elem_of_In in H. exact (repeat_spec _ _ _ H). Qed.

Lemma Inv_init : Inv (init k changed).
Proof.
  split; simpl.
  - reflexivity.
  - split; [discriminate | intros [? H]; discriminate].
  - intros e H. discriminate.
  - intros _ fn [].
  - intros i fn H. apply lookup_repeat_selecting in H. discriminate.
  - intros i H. apply lookup_repeat_selecting in H. discriminate.
  - intros i e H. apply lookup_repeat_selecting in H. discriminate.
  - intros x [].
  - apply repeat_length.
Qed.

Lemma Inv_step (p p' : pool) : step optimizeImage p p' -> Inv p -> Inv p'.
Proof.
  intros Hs [Hq Hc He Ho Hb Hn Hsm Hf Hl]. destruct Hs as
    [i p0 Hw Hcan | i p0 fn rest Hw Hch Hfn | i p0 rest Hw Hch | i p0 Hw Hch | i p0 fn e Hw Hopt
    | i p0 fn Hw Hopt].
  - (* step_done: the context is already cancelled, so an error is recorded *)
    destruct (proj1 Hc Hcan) as [x Hx].
    split; rewrite ?ret_ch, ?ret_started, ?ret_workers, ?ret_first_err, ?ret_cancelled, ?Hx.
    + exact Hq.
    + split; [intros _; eauto | intros _; exact Hcan].
    + intros e0 H0. apply He. congruence.
    + intros Hnone. discriminate.
    + intros j fn Hj. ins_case Hj i j; [discriminate | eauto].
    + intros j Hj. ins_case Hj i j; [discriminate | eauto].
    + intros; eauto.
    + intros; eauto.
    + rewrite length_insert. exact Hl.
  - (* step_recv: the head of the queue is started *)
    split; simpl.
    + rewrite map_app, <- app_assoc. simpl. rewrite <- Hch. exact Hq.
    + exact Hc.
    + intros e0 H0. destruct (He e0 H0) as [fn0 [Hin Hop]]. exists fn0.
      split; [apply In_map_fst_app; left; exact Hin | exact Hop].
    + intros Hnone fn0 Hin. apply In_map_fst_app in Hin as [Hin | ->].
      * destruct (Ho Hnone fn0 Hin) as [Hop | [j Hj]]; [left; exact Hop|right].
        exists j. rewrite list_lookup_insert_ne; [exact Hj | congruence].
      * right. exists i. apply list_lookup_insert_eq. eapply lookup_lt_Some. exact Hw.
    + intros j fn0 Hj. apply In_map_fst_app. ins_case Hj i j.
      * injection Hj as <-. right; reflexivity.
      * left; eauto.
    + intros j Hj. ins_case Hj i j; [discriminate|]. pose proof (Hn j Hj). congruence.
    + intros j e0 Hj. ins_case Hj i j; [discriminate | eauto].
    + intros x Hin Hx. apply in_app_iff in Hin as [Hin | [<- | []]]; [eauto|].
      apply Hc. exact Hx.
    + rewrite length_insert. exact Hl.
  - (* step_recv_empty: the queue holds no empty name *)
    exfalso. apply Hnonempty. rewrite <- Hq, Hch. apply in_app_iff. right. left. reflexivity.
  - (* step_closed: the worker returns nil *)
    split; rewrite ?ret_ch, ?ret_started, ?ret_workers, ?ret_first_err, ?ret_cancelled.
    + exact Hq.
    + destruct (first_err p0); exact Hc.
    + intros e0 H0. destruct (first_err p0); [apply He; exact H0 | discriminate].
    + intros Hnone fn0 Hin. destruct (first_err p0); [discriminate|].
      destruct (Ho eq_refl fn0 Hin) as [Hop | [j Hj]]; [left; exact Hop | right].
      exists j. rewrite list_lookup_insert_ne; [exact Hj | congruence].
    + intros j fn0 Hj. ins_case Hj i j; [discriminate | eauto].
    + intros j Hj. exact Hch.
    + intros j e0 Hj. ins_case Hj i j; [discriminate|].
      destruct (first_err p0); [eauto | exact (Hsm j e0 Hj)].
    + intros x Hin Hx. destruct (first_err p0); [eauto | exact (Hf x Hin Hx)].
    + rewrite length_insert. exact Hl.
  - (* step_fail: the error is recorded unless one already was *)
    assert (Hfe : is_Some (first_err (ret p0 i (Some e))))
      by (rewrite ret_first_err; destruct (first_err p0); eauto).
    split; rewrite ?ret_ch, ?ret_started, ?ret_workers; try (intros; exact Hfe).
    + exact Hq.
    + split; [intros _; exact Hfe|]. intros _. rewrite ret_cancelled.
      destruct (first_err p0) as [x|] eqn:Ex; [apply Hc; eauto | reflexivity].
    + intros e0 H0. rewrite ret_first_err in H0.
      destruct (first_err p0) as [x|]; [eauto|]. injection H0 as <-. eauto.
    + intros Hnone. destruct Hfe as [x Hx]. congruence.
    + intros j fn0 Hj. ins_case Hj i j; [discriminate | eauto].
    + intros j Hj. ins_case Hj i j; [discriminate | eauto].
    + rewrite length_insert. exact Hl.
  - (* step_ok: the worker is back at its [select] *)
    split; simpl; try assumption.
    + intros Hnone fn0 Hin. destruct (Ho Hnone fn0 Hin) as [Hop | [j Hj]]; [left; exact Hop|].
      destruct (decide (i = j)) as [<-|Hij].
      * rewrite Hw in Hj. injection Hj as <-. left; exact Hopt.
      * right. exists j. rewrite list_lookup_insert_ne by exact Hij. exact Hj.
    + intros j fn0 Hj. ins_case Hj i j; [discriminate | eauto].
    + intros j Hj. ins_case Hj i j; [discriminate | eauto].
    + intros j e0 Hj. ins_case Hj i j; [discriminate | eauto].
    + rewrite length_insert. exact Hl.
Qed.

Lemma Inv_run (p : pool) : rtc (step optimizeImage) (init k changed) p -> Inv p.
Proof.
  intros Hr. remember (init k changed) as p0 eqn:E.
  assert (H0 : Inv p0) by (subst; apply Inv_init). clear E.
  induction Hr as [x|x y z Hxy Hyz IH]; [exact H0|]. apply IH. exact (Inv_step x y Hxy H0).
Qed.

Lemma finished_lookup (p : pool) (i : nat) (w : worker) :
  finished p = true -> workers p !! i = Some w -> exists e, w = Returned e.
Proof.
  unfold finished. intros Hfin Hw.
  assert (Hin : In w (workers p))
    by (apply list_elem_of_In; eapply list_elem_of_lookup_2; exact Hw).
  pose proof (proj1 (forallb_forall _ _) Hfin w Hin) as H.
  destruct w; [discriminate | discriminate | eauto].
Qed.

Lemma flags_false (l : list (string * bool)) :
  (forall x, In x l -> x.2 = true -> False) -> l = map (fun fn => (fn, false)) (map fst l).
Proof.
  induction l as [|[a b] l IH]; intros H; [reflexivity|].
  destruct b.
  - exfalso. apply (H (a, true)); [left; reflexivity | reflexivity].
  - simpl. f_equal. apply IH. intros x Hin Hx. apply (H x); [right; exact Hin | exact Hx].
Qed.


(** When every worker has returned and no error was recorded, so that
    [eg.Wait()] returns nil, every changed file was taken exactly once,
    in order, before any cancellation, and optimizing it succeeded. *)
Theorem pool_success (p : pool) :
  (0 < k)%nat -> rtc (step optimizeImage) (init k changed) p ->
  finished p = true -> first_err p = None ->
  started p = map (fun fn => (fn, false)) changed /\
  (forall fn, In fn changed -> optimizeImage fn = None).
Proof.
  intros Hk Hr Hfin Hnone.
  destruct (Inv_run p Hr) as [Hq Hc He Ho Hb Hn Hsm Hf Hl].
  destruct (lookup_lt_is_Some_2 (workers p) 0) as [w Hw]; [rewrite Hl; exact Hk|].
  destruct (finished_lookup p 0 w Hfin Hw) as [[e|] ->].
  - destruct (Hsm 0%nat e Hw) as [x Hx]. congruence.
  - pose proof (Hn 0%nat Hw) as Hch. rewrite Hch, app_nil_r in Hq.
    split.
    + rewrite <- Hq. apply flags_false. intros x Hin Hx.
      destruct (Hf x Hin Hx) as [y Hy]. congruence.
    + intros fn Hin. rewrite <- Hq in Hin.
      destruct (Ho Hnone fn Hin) as [Hop | [j Hj]]; [exact Hop|].
      destruct (finished_lookup p j _ Hfin Hj) as [e' He']. discriminate.
Qed.

(** The error [eg.Wait()] returns is the error [s.optimizeImage] gave on
    one of the changed files that a worker took: never the
    [context canceled] error of a worker that saw the cancellation. *)
Theorem pool_error_origin (p : pool) (e : string) :
  rtc (step optimizeImage) (init k changed) p -> first_err p = Some e ->
  exists fn, In fn changed /\ In fn (map fst (started p)) /\ optimizeImage fn = Some e.
Proof.
  intros Hr He0. destruct (Inv_run p Hr) as [Hq _ He _ _ _ _ _ _].
  destruct (He e He0) as [fn [Hin Hop]]. exists fn.
  split; [|split; assumption]. rewrite <- Hq. apply in_app_iff. left. exact Hin.
Qed.

End Run.





(** an [optimizeImage] that always succeeds *)
Definition ok_all (fn : string) : option string := None.

(** an [optimizeImage] failing on one file *)
Definition fail_bad (fn : string) : option string :=
  if String.eqb fn "bad.png" then Some "exit status 1" else None.

Definition demo_done : pool := mkPool [] [Returned None] false None [("a.png", false)].

Definition demo_cancelled : pool :=
  mkPool ["b.png"] [Returned (Some "exit status 1"); Selecting] true (Some "exit status 1")
    [("bad.png", false)].

Definition demo_after : pool :=
  mkPool [] [Returned (Some "exit status 1"); Returned None] true (Some "exit status 1")
    [("bad.png", false); ("b.png", true)].

Lemma demo_done_run : rtc (step ok_all) (init 1 ["a.png"]) demo_done.
Proof.
  eapply rtc_l.
  { apply (step_recv ok_all 0 _ "a.png" []); [reflexivity | reflexivity | discriminate]. }
  eapply rtc_l. { apply (step_ok ok_all 0 _ "a.png"); reflexivity. }
  eapply rtc_l. { apply (step_closed ok_all 0 _); reflexivity. }
  apply rtc_refl.
Qed.

Lemma demo_cancelled_run : rtc (step fail_bad) (init 2 ["bad.png"; "b.png"]) demo_cancelled.
Proof.
  eapply rtc_l.
  { apply (step_recv fail_bad 0 _ "bad.png" ["b.png"]); [reflexivity | reflexivity | discriminate]. }
  eapply rtc_l. { apply (step_fail fail_bad 0 _ "bad.png" "exit status 1"); reflexivity. }
  apply rtc_refl.
Qed.

Lemma demo_after_run : rtc (step fail_bad) demo_cancelled demo_after.
Proof.
  eapply rtc_l.
  { apply (step_recv fail_bad 1 _ "b.png" []); [reflexivity | reflexivity | discriminate]. }
  eapply rtc_l. { apply (step_ok fail_bad 1 _ "b.png"); reflexivity. }
  eapply rtc_l. { apply (step_closed fail_bad 1 _); reflexivity. }
  apply rtc_refl.
Qed.


Lemma pool_success_witness :
  (0 < 1)%nat /\ finished demo_done = true /\ first_err demo_done = None /\
  started demo_done = map (fun fn => (fn, false)) ["a.png"] /\
  (forall fn, In fn ["a.png"] -> ok_all fn = None).
Proof.
  split; [lia|]. split; [reflexivity|]. split; [reflexivity|].
  exact (pool_success ok_all 1 ["a.png"] ltac:(intros [H|[]]; discriminate) demo_done
    ltac:(lia) demo_done_run eq_refl eq_refl).
Defined.

Lemma pool_error_origin_witness :
  first_err demo_after = Some "exit status 1" /\
  exists fn, In fn ["bad.png"; "b.png"] /\ In fn (map fst (started demo_after)) /\
    fail_bad fn = Some "exit status 1".
Proof.
  split; [reflexivity|].
  exact (pool_error_origin fail_bad 2 ["bad.png"; "b.png"]
    ltac:(intros [H|[H|[]]]; discriminate) demo_after "exit status 1"
    (rtc_trans _ _ _ demo_cancelled_run demo_after_run) eq_refl).
Defined.


End pool_props.

(* ------------------------------------------------------------------ *)
(** ** The [asset($url)] callback *)

Module asset_props.
Import pack manifest_props pack_props assetcb.

(** [url] is the asset path [z] followed by a query string or fragment
    [q] that the callback splits off whole: [q] starts at the last ["?"],
    or, with no ["?"] at all, at the last ["#"], or is empty *)
Definition query_split (z q : string) : Prop :=
  (exists q', q = String "?" q' /\ last_index q' "?"%char = None) \/
  (last_index z "?"%char = None /\
     exists q', q = String "#" q' /\ last_index q' "?"%char = None /\
       last_index q' "#"%char = None) \/
  (q = EmptyString /\ last_index z "?"%char = None /\ last_index z "#"%char = None).

Lemma append_cons (a : ascii) (s t : string) : (String a s ++ t)%string = String a (s ++ t).
Proof. reflexivity. Qed.

Lemma append_nil (t : string) : (EmptyString ++ t)%string = t.
Proof. reflexivity. Qed.


Lemma last_index_acc (t : string) (c : ascii) (j : nat) (acc : option nat) :
  last_index_aux t c j acc =
    match last_index_aux t c j None with Some x => Some x | None => acc end.
Proof.
  revert j acc. induction t as [|d t IH]; intros j acc; simpl; [reflexivity|].
  rewrite (IH _ (if Ascii.eqb d c then Some j else acc)),
    (IH _ (if Ascii.eqb d c then Some j else None)).
  destruct (last_index_aux t c (S j) None); [reflexivity|].
  destruct (Ascii.eqb d c); reflexivity.
Qed.

Lemma string_length_app (s t : string) :
  String.length (s ++ t) = (String.length s + String.length t)%nat.
Proof. induction s as [|a s IH]; rewrite ?append_cons, ?append_nil; simpl; [reflexivity | rewrite IH; reflexivity]. Qed.

Lemma last_index_app (s t : string) (c : ascii) (j : nat) (acc : option nat) :
  last_index_aux (s ++ t) c j acc =
    last_index_aux t c (j + String.length s) (last_index_aux s c j acc).
Proof.
  revert j acc. induction s as [|a s IH]; intros j acc; rewrite ?append_cons, ?append_nil; simpl.
  - rewrite Nat.add_0_r. reflexivity.
  - rewrite IH. f_equal. lia.
Qed.

Lemma last_index_none_shift (t : string) (c : ascii) (j j' : nat) :
  last_index_aux t c j None = None -> last_index_aux t c j' None = None.
Proof.
  revert j j'. induction t as [|d t IH]; intros j j' H; simpl in *; [reflexivity|].
  rewrite last_index_acc in H |- *.
  destruct (last_index_aux t c (S j) None) eqn:E; [discriminate|].
  rewrite (IH (S j) (S j') E). destruct (Ascii.eqb d c); [discriminate | reflexivity].
Qed.

Lemma last_index_found (z q : string) (c : ascii) :
  last_index q c = None -> last_index (z ++ String c q) c = Some (String.length z).
Proof.
  unfold last_index. intros H. rewrite last_index_app. simpl.
  rewrite Ascii.eqb_refl, last_index_acc, (last_index_none_shift q c 0 _ H).
  reflexivity.
Qed.

Lemma last_index_app_none (z q : string) (c : ascii) :
  last_index z c = None -> last_index q c = None -> last_index (z ++ q) c = None.
Proof.
  unfold last_index. intros Hz Hq. rewrite last_index_app, last_index_acc,
    (last_index_none_shift q c 0 _ Hq). exact Hz.
Qed.

Lemma append_empty_r (z : string) : (z ++ EmptyString)%string = z.
Proof. induction z as [|a z IH]; rewrite ?append_cons, ?append_nil; [reflexivity | f_equal; exact IH]. Qed.

Lemma substring_all (q : string) : substring 0 (String.length q) q = q.
Proof. induction q as [|a q IH]; simpl; [reflexivity | f_equal; exact IH]. Qed.

Lemma slice_to_app (z q : string) : slice_to (z ++ q) (String.length z) = z.
Proof.
  unfold slice_to. induction z as [|a z IH]; rewrite ?append_cons, ?append_nil; simpl;
    [destruct q; reflexivity | rewrite IH; reflexivity].
Qed.

Lemma slice_from_app (z q : string) : slice_from (z ++ q) (String.length z) = q.
Proof.
  unfold slice_from. rewrite string_length_app.
  replace (String.length z + String.length q - String.length z)%nat with (String.length q) by lia.
  induction z as [|a z IH]; rewrite ?append_cons, ?append_nil; simpl; [apply substring_all | exact IH].
Qed.

Lemma split_qstr_app (z q : string) : query_split z q -> split_qstr (z ++ q) = (z, q).
Proof.
  unfold split_qstr. intros [(q' & -> & Hq) | [(Hz & q' & -> & Hq1 & Hq2) | (-> & Hz1 & Hz2)]].
  - rewrite (last_index_found z q' _ Hq), slice_to_app, slice_from_app. reflexivity.
  - rewrite last_index_app_none.
    + rewrite (last_index_found z q' _ Hq2), slice_to_app, slice_from_app. reflexivity.
    + exact Hz.
    + unfold last_index. simpl. exact (last_index_none_shift q' _ 0 1 Hq1).
  - rewrite append_empty_r, Hz1, Hz2. reflexivity.
Qed.

Lemma prefix_app_stop (pfx z t : string) (c : ascii) :
  forallb (fun a => negb (Ascii.eqb a c)) (list_ascii_of_string pfx) = true ->
  String.prefix pfx (z ++ String c t) = String.prefix pfx z.
Proof.
  revert pfx. induction z as [|d z IH]; intros [|a pfx] H; rewrite ?append_cons, ?append_nil; simpl in *;
    try reflexivity.
  - apply andb_prop in H as [H _]. destruct (ascii_dec a c) as [<-|]; [|reflexivity].
    rewrite Ascii.eqb_refl in H. discriminate.
  - apply andb_prop in H as [_ H]. destruct (ascii_dec a d); [exact (IH pfx H) | reflexivity].
Qed.

Lemma prefix_app_self (s t : string) : String.prefix s (s ++ t) = true.
Proof.
  induction s as [|a s IH]; rewrite ?append_cons, ?append_nil; simpl; [destruct t; reflexivity|].
  destruct (ascii_dec a a) as [_|n]; [exact IH | contradiction].
Qed.

Lemma fix_webfonts_keep (z q : string) :
  String.prefix "../webfonts/" z = false -> query_split z q -> fix_webfonts (z ++ q) = (z ++ q)%string.
Proof.
  unfold fix_webfonts. intros Hw [(q' & -> & _) | [(_ & q' & -> & _) | (-> & _)]].
  - rewrite prefix_app_stop by reflexivity. rewrite Hw. reflexivity.
  - rewrite prefix_app_stop by reflexivity. rewrite Hw. reflexivity.
  - rewrite append_empty_r, Hw. reflexivity.
Qed.

(** [asset] on a url split into its path and query string *)
Lemma asset_split (p : Pack) (z q : string) :
  String.prefix "../webfonts/" z = false -> query_split z q ->
  asset p [JString (z ++ q)] =
    match Manifest p with
    | Ok m =>
        Ok (JString ("url('/_/" ++
          match m !! ("/" ++ trim_prefix_slash z)%string with
          | Some n => n
          | None => "__INV:" ++ z ++ q ++ "__"
          end ++ q ++ "')")%string)
    | Err e => Err ("unable to load manifest: " ++ e)%string
    | Panic s => Panic s
    end.
Proof.
  intros Hw Hq. unfold asset. rewrite (fix_webfonts_keep z q Hw Hq), (split_qstr_app z q Hq).
  reflexivity.
Qed.


(** After a successful run of [Pack] calls, [asset($url)] on the
    normalized name of a packed entry (clean, not the manifest name, not
    packed again later), optionally followed by a query string or
    fragment, gives [url('/_/<fingerprint><query>')], the fingerprint
    being the one [Manifest] records for that entry. *)
Theorem asset_resolves_packed (p p' : Pack) (m : gmap string string)
    (l1 l2 : list (string * list byte)) (n : string) (b : list byte) (q : string)
    (Hpack : pack_all p (l1 ++ (n, b) :: l2) = (p', None))
    (Hlast : Forall (fun e => normalize n <> normalize e.1) l2)
    (Hclean : go_clean (normalize n) = normalize n)
    (Hbase : go_base (normalize n) <> manifest p)
    (HM : Manifest p' = Ok m)
    (Hq : query_split (normalize n) q) :
  asset p' [JString (normalize n ++ q)] =
    Ok (JString ("url('/_/" ++ fingerprint (normalize n) (md5hex b) ++ q ++ "')")%string).
Proof.
  rewrite (asset_split p' (normalize n) q eq_refl Hq), HM.
  change (("/" ++ trim_prefix_slash (normalize n))%string) with (normalize n).
  rewrite (packed_lookup p p' m l1 l2 n b Hpack Hlast Hclean Hbase HM). reflexivity.
Qed.



Lemma asset_resolves_packed_witness :
  asset demo_pack [JString "/css/app.css?v=2"] =
    Ok (JString ("url('/_/" ++ fingerprint "/css/app.css" (md5hex (bytes_of "b")) ++ "?v=2')")%string).
Proof.
  exact (asset_resolves_packed (New root_store) demo_pack demo_manifest
    [("/js/app.js", bytes_of "a")] [] "css/app.css" (bytes_of "b") "?v=2"
    ltac:(vm_compute; reflexivity) (List.Forall_nil _) ltac:(vm_compute; reflexivity)
    ltac:(vm_compute; discriminate) ltac:(vm_compute; reflexivity)
    (or_introl (ex_intro _ "v=2" (conj eq_refl eq_refl)))).
Defined.


End asset_props.

(* ------------------------------------------------------------------ *)
(** ** The digests [Pack] records, and [Manifest] after packing *)

Module digest_props.
Import pack manifest_props pack_props.

Definition hex_chars : list ascii := list_ascii_of_string "0123456789abcdef".

Lemma hex_length (bs : list Z) : String.length (hex bs) = (2 * length bs)%nat.
Proof. induction bs as [|b bs IH]; simpl; [reflexivity | rewrite IH; lia]. Qed.

Lemma hex_digit_char (n : Z) : 0 <= n < 16 -> In (hex_digit n) hex_chars.
Proof.
  intros Hn. rewrite <- (Z2Nat.id n) by lia.
  assert (Hk : (Z.to_nat n < 16)%nat) by lia. generalize (Z.to_nat n) Hk. clear.
  intros k Hk. do 16 (destruct k as [|k]; [vm_compute; tauto|]). lia.
Qed.

Lemma hex_chars_in (bs : list Z) :
  Forall (fun b => 0 <= b < 256) bs ->
  forall c, In c (list_ascii_of_string (hex bs)) -> In c hex_chars.
Proof.
  induction 1 as [|b bs Hb _ IH]; intros c Hin; simpl in Hin; [destruct Hin|].
  destruct Hin as [<- | [<- | Hin]]; [| | exact (IH c Hin)].
  - apply hex_digit_char. rewrite Z.shiftr_div_pow2 by lia.
    split; [apply Z.div_pos; lia | apply Z.div_lt_upper_bound; simpl; lia].
  - apply hex_digit_char. change 15 with (Z.ones 4). rewrite Z.land_ones by lia.
    apply Z.mod_pos_bound. reflexivity.
Qed.

Lemma land_255_range (w : Z) : 0 <= Z.land w 255 < 256.
Proof.
  change 255 with (Z.ones 8). rewrite Z.land_ones by lia. apply Z.mod_pos_bound. reflexivity.
Qed.

Lemma le_bytes32_range (w : Z) : Forall (fun b => 0 <= b < 256) (MD5.le_bytes32 w).
Proof. unfold MD5.le_bytes32. repeat constructor; apply land_255_range. Qed.

Lemma md5_sum_shape (b : list byte) :
  length (MD5.sum b) = 16%nat /\ Forall (fun x => 0 <= x < 256) (MD5.sum b).
Proof.
  unfold MD5.sum. destruct (MD5.blocks _ _ _) as [[[a b0] c] d].
  split; [reflexivity|].
  repeat apply Forall_app_2; apply le_bytes32_range.
Qed.

Lemma md5hex_shape (b : list byte) :
  String.length (md5hex b) = 32%nat /\
  forall c, In c (list_ascii_of_string (md5hex b)) -> In c hex_chars.
Proof.
  destruct (md5_sum_shape b) as [Hl Hr]. unfold md5hex. split.
  - rewrite hex_length, Hl. reflexivity.
  - exact (hex_chars_in _ Hr).
Qed.

(** A successful [Pack] records, under the normalized name, the
    [%x] formatting of the MD5 digest of the payload: 32 characters, all
    lower-case hexadecimal digits. *)
Theorem Pack_records_hex_digest (p p' : Pack) (n : string) (b : list byte) :
  Pack_ p n b = (p', None) ->
  h p' !! normalize n = Some (md5hex b) /\ String.length (md5hex b) = 32%nat /\
  (forall c, In c (list_ascii_of_string (md5hex b)) -> In c hex_chars).
Proof.
  intros E. destruct (Pack_ok_inv p p' n b E) as (_ & _ & _ & Hh & _).
  split; [rewrite Hh; apply lookup_insert_eq | apply md5hex_shape].
Qed.

(** after a successful run, a packed normalized name holds the digest of
    some payload *)
Lemma pack_all_h_md5 (p p' : Pack) (l : list (string * list byte)) (k : string) :
  pack_all p l = (p', None) -> Exists (fun e => normalize e.1 = k) l ->
  exists b, h p' !! k = Some (md5hex b).
Proof.
  revert p. induction l as [|[n b] l IH]; intros p0 H Hex; [inversion Hex|].
  simpl in H. destruct (Pack_ p0 n b) as [p1 [r|]] eqn:E; [discriminate|].
  destruct (decide (Exists (fun e => normalize e.1 = k) l)) as [Hl|Hl]; [exact (IH p1 H Hl)|].
  inversion Hex as [x y Hk|x y Hl']; subst; [|contradiction].
  destruct (Pack_ok_inv p0 p1 n b E) as (_ & _ & _ & Hh1 & _).
  destruct (pack_all_keeps p1 p' l None H) as (_ & Hh & _).
  exists b. rewrite Hh; [rewrite Hh1; apply lookup_insert_eq|].
  apply Forall_forall. intros e He Heq. apply Hl. apply Exists_exists. exists e.
  split; [exact He | symmetry; exact Heq].
Qed.

Lemma shape_file (st : gmap string node) (q : string) :
  shape st q = Some false -> exists y, st !! q = Some (NFile y).
Proof. unfold shape. destruct (st !! q) as [[|y]|]; simpl; intros H; try discriminate; eauto. Qed.

(** [Manifest] does not panic after a successful run of [Pack] calls
    whose normalized names are already clean, on a store whose files all
    have a recorded hash of at least 6 bytes (such as the store of
    [New] over an empty directory). *)
Theorem Manifest_ok_after_pack_all (p p' : Pack) (l : list (string * list byte)) :
  pack_all p l = (p', None) ->
  Forall (fun e => go_clean (normalize e.1) = normalize e.1) l ->
  (forall q x, fs p !! q = Some (NFile x) ->
     exists v, h p !! q = Some v /\ (6 <= String.length v)%nat) ->
  exists m, Manifest p' = Ok m.
Proof.
  intros H Hcl Hp. unfold Manifest, manifest_walk.
  destruct (walk_spec p' (map_to_list (fs p')) ∅) as [[Hb _] | [_ [m [Hm _]]]]; [|eauto].
  exfalso. apply existsb_exists in Hb as [[q nd] [Hin Hbad]].
  unfold bad, keep in Hbad. simpl in Hbad. apply andb_prop in Hbad as [Hk Hlen].
  destruct nd as [|x]; [discriminate|].
  assert (Hq : fs p' !! q = Some (NFile x))
    by (apply elem_of_map_to_list, list_elem_of_In; exact Hin).
  assert (Hshort : forall b, h p' !! q = Some (md5hex b) -> False).
  { intros b Hb. unfold hv in Hlen. rewrite Hb in Hlen. simpl in Hlen.
    rewrite (proj1 (md5hex_shape b)) in Hlen. discriminate. }
  pose proof (pack_all_shape p p' l H q) as Hs.
  unfold shape in Hs at 1. rewrite Hq in Hs. simpl in Hs.
  destruct (in_files l q) eqn:Ef; [|destruct (in_dirs l q); [discriminate|]].
  - unfold in_files in Ef. apply existsb_exists in Ef as [e [He Heq]].
    apply String.eqb_eq in Heq. unfold file_of in Heq.
    rewrite (proj1 (Forall_forall _ _) Hcl e (proj2 (list_elem_of_In _ _) He)) in Heq.
    destruct (pack_all_h_md5 p p' l q H) as [b Hb].
    + apply Exists_exists. exists e. split; [apply list_elem_of_In; exact He | exact Heq].
    + exact (Hshort b Hb).
  - symmetry in Hs. destruct (shape_file _ _ Hs) as [y Hy].
    destruct (Hp q y Hy) as [v [Hv Hv6]].
    destruct (decide (Exists (fun e => normalize e.1 = q) l)) as [Hx|Hx].
    + destruct (pack_all_h_md5 p p' l q H Hx) as [b Hb]. exact (Hshort b Hb).
    + destruct (pack_all_keeps p p' l None H) as (_ & Hh & _).
      unfold hv in Hlen. rewrite Hh in Hlen.
      * rewrite Hv in Hlen. simpl in Hlen.
        apply Nat.ltb_lt in Hlen. lia.
      * apply Forall_forall. intros e He Heq. apply Hx. apply Exists_exists. exists e.
        split; [exact He | symmetry; exact Heq].
Qed.

Lemma Pack_records_hex_digest_witness :
  h (fst (Pack_ (New root_store) "css/app.css" (bytes_of "b"))) !! "/css/app.css" =
    Some (md5hex (bytes_of "b")) /\
  String.length (md5hex (bytes_of "b")) = 32%nat /\
  (forall c, In c (list_ascii_of_string (md5hex (bytes_of "b"))) -> In c hex_chars).
Proof.
  exact (Pack_records_hex_digest (New root_store) _ "css/app.css" (bytes_of "b")
    ltac:(vm_compute; reflexivity)).
Defined.

Lemma Manifest_ok_after_pack_all_witness : exists m, Manifest demo_pack = Ok m.
Proof.
  exact (Manifest_ok_after_pack_all (New root_store) demo_pack demo_entries
    ltac:(vm_compute; reflexivity)
    ltac:(repeat constructor; vm_compute; reflexivity)
    ltac:(intros q x Hq; simpl in Hq; unfold root_store in Hq;
          apply lookup_singleton_Some in Hq as [_ Hq]; discriminate)).
Defined.

End digest_props.

(* ------------------------------------------------------------------ *)
(** ** [Pack] on conflicting paths, and [ManifestInverted] in general *)

Module conflict_props.
Import pack manifest_props pack_props.

Lemma Pack_err_keeps (p p' : Pack) (n : string) (b : list byte) (e : string) :
  Pack_ p n b = (p', Some e) -> h p' = h p /\ manifest p' = manifest p.
Proof.
  unfold Pack_. cbv zeta. destruct (mkdir_all (fs p) (go_dir (normalize n))) as [[e0|] st].
  - intros H. injection H as <- _. split; reflexivity.
  - destruct (write_file st (normalize n) b) as [[e1|] st'];
      intros H; [injection H as <- _; split; reflexivity | discriminate].
Qed.

(** [Pack] fails when one of the directories above the normalized name
    ([filepath.Dir] of it and its ancestors) is a stored file, or when
    the name itself is a stored directory; the failed call leaves the
    recorded hashes and the manifest name unchanged. *)
Theorem Pack_fails_on_conflict (p : Pack) (n : string) (b : list byte) :
  (exists q, In q (dirs_of n) /\ shape (fs p) q = Some false) \/
  shape (fs p) (file_of n) = Some true ->
  exists p' e, Pack_ p n b = (p', Some e) /\ h p' = h p /\ manifest p' = manifest p.
Proof.
  intros Hc. destruct (Pack_ p n b) as [p' [e|]] eqn:E.
  - exists p', e. split; [reflexivity | exact (Pack_err_keeps p p' n b e E)].
  - exfalso. destruct (Pack_shape p p' n b E) as (_ & Hd & Hf).
    destruct Hc as [[q [Hq Hs]] | Hs]; [exact (Hd q Hq Hs) | exact (Hf Hs)].
Qed.

Lemma invert_fold_some (l : list (string * string)) (acc : gmap string string) (k v : string) :
  fold_left (fun rev '(v, k) => <[k := v]> rev) l acc !! k = Some v ->
  In (v, k) l \/ acc !! k = Some v.
Proof.
  revert acc. induction l as [|[v' k'] l IH]; intros acc H; simpl in H; [right; exact H|].
  destruct (IH _ H) as [Hin | Ha]; [left; right; exact Hin|].
  destruct (String.eqb_spec k' k) as [<-|Hne].
  - rewrite lookup_insert_eq in Ha. injection Ha as <-. left; left; reflexivity.
  - rewrite lookup_insert_ne in Ha by exact Hne. right; exact Ha.
Qed.

Lemma invert_fold_is_some (l : list (string * string)) (acc : gmap string string) (k : string) :
  is_Some (acc !! k) \/ In k (map snd l) ->
  is_Some (fold_left (fun rev '(v, k) => <[k := v]> rev) l acc !! k).
Proof.
  revert acc. induction l as [|[v' k'] l IH]; intros acc H; simpl in *.
  - destruct H as [H|[]]; exact H.
  - apply IH. destruct H as [H | [<- | H]]; [left | left | right; exact H].
    + destruct (String.eqb_spec k' k) as [<-|Hne];
        [rewrite lookup_insert_eq; eauto | rewrite lookup_insert_ne by exact Hne; exact H].
    + rewrite lookup_insert_eq. eauto.
Qed.

(** Whatever order Go's map iteration takes, and whether or not two names
    share a fingerprint, [ManifestInverted] maps every fingerprint of the
    manifest, and only those, to a name that has that fingerprint. *)
Theorem ManifestInverted_sound (p : Pack) (m : gmap string string) :
  Manifest p = Ok m ->
  ManifestInverted p = Ok (invert (map_to_list m)) /\
  forall l, l ≡ₚ map_to_list m -> forall k,
    (forall v, invert l !! k = Some v -> m !! v = Some k) /\
    (is_Some (invert l !! k) <-> exists v, m !! v = Some k).
Proof.
  intros HM. split; [unfold ManifestInverted; rewrite HM; reflexivity|].
  intros l Hl k. unfold invert. split.
  - intros v Hv. destruct (invert_fold_some l ∅ k v Hv) as [Hin | Ha];
      [|rewrite lookup_empty in Ha; discriminate].
    apply elem_of_map_to_list, list_elem_of_In. exact (Permutation_in _ Hl Hin).
  - split.
    + intros [v Hv]. exists v. destruct (invert_fold_some l ∅ k v Hv) as [Hin | Ha];
        [|rewrite lookup_empty in Ha; discriminate].
      apply elem_of_map_to_list, list_elem_of_In. exact (Permutation_in _ Hl Hin).
    + intros [v Hv]. apply invert_fold_is_some. right.
      apply (in_map snd _ (v, k)). apply (Permutation_in _ (Permutation_sym Hl)).
      apply list_elem_of_In, elem_of_map_to_list. exact Hv.
Qed.

(** a store holding the file [/a] *)
Definition conflict_pack : Pack := fst (Pack_ (New root_store) "a" (bytes_of "x")).

Lemma Pack_fails_on_conflict_witness :
  exists p' e, Pack_ conflict_pack "a/b.css" (bytes_of "y") = (p', Some e) /\
    h p' = h conflict_pack /\ manifest p' = manifest conflict_pack.
Proof.
  apply (Pack_fails_on_conflict conflict_pack "a/b.css" (bytes_of "y")).
  left. exists "/a". split; [vm_compute; tauto | vm_compute; reflexivity].
Defined.

Lemma ManifestInverted_sound_witness :
  Manifest demo_pack = Ok demo_manifest /\
  ManifestInverted demo_pack = Ok (invert (map_to_list demo_manifest)) /\
  forall l, l ≡ₚ map_to_list demo_manifest -> forall k,
    (forall v, invert l !! k = Some v -> demo_manifest !! v = Some k) /\
    (is_Some (invert l !! k) <-> exists v, demo_manifest !! v = Some k).
Proof.
  split; [vm_compute; reflexivity|].
  exact (ManifestInverted_sound demo_pack demo_manifest ltac:(vm_compute; reflexivity)).
Defined.

End conflict_props.
